(** * NicheHunter: the business discovery pipeline of [main.py]

    A shallow embedding of [BusinessLogic] ([build_url], [fetch],
    [get_business_details], [find_businesses], [write_to_csv]) and of
    [async_search], and the properties of the filter chain, response cache
    and page loop.

    Modelling choices:
    - JSON bodies are records whose fields are the keys the code reads;
      a field is [None] when the key is absent.  Reading an absent key
      with [d[k]] raises [KeyError], with [d.get(k)] gives the default.
      A key that is present holds a value of the shape the code expects:
      a [null] result, a time that is not a number or a [filters] dict
      without one of its keys are outside the model, and so are the
      [TypeError]s they would raise.
    - Effects are explicit: a computation takes the [world] (clock, cache
      of [fetch], trace of events) and returns an [outcome] and the new
      world.  Time is counted in whole seconds and passes in
      [asyncio.sleep] only.
    - The remote end is a function from the URLs requested so far and the
      URL requested now to a reply, so that scripted mocks can be written.
    - A coroutine is cut at the point where it waits for the network;
      [asyncio.gather] starts all tasks in list order and lets the replies
      arrive in any order.
    - [while True] runs for a given number of turns ([fuel]). *)

From Stdlib Require Import ZArith List Lia Bool.
From stdpp Require Import base option list gmap strings pretty.

Local Open Scope Z_scope.

(** ** Data model *)

Module Json.

(** One element of a detail result's ['reviews'] list.  Only the key
    ['time'] is read (line 110); a review that lacks it makes
    [review['time']] raise. *)
Record review := Review { time : option Z }.

(** The object under ['result'] of a detail response: a Python dict read
    with [in], [.get] and [[...]], so every key may be absent. *)
Record details := Details {
  name : option string;
  formatted_phone_number : option string;
  website : option string;
  formatted_address : option string;
  types : option (list string);
  business_status : option string;
  reviews : option (list review)
}.

(** One element of a search response's ['results'] list. *)
Record place := Place { place_id : option string }.

(** A parsed JSON body as [fetch] returns it.  The search endpoint fills
    ['results'] and ['next_page_token'], the detail endpoint ['result'];
    the code looks all three up on the same kind of dict. *)
Record response := Response {
  results : option (list place);
  next_page_token : option string;
  result : option details
}.

(** [{}], the default of [result.get('result', {})]. *)
Definition empty_details : details :=
  Details None None None None None None None.

End Json.
Import Json.

(** The [filters] dict built by the GUI (lines 268-274). *)
Record filters := Filters {
  without_website : bool;
  operational : bool;
  has_phone : bool;
  has_recent_reviews : bool;
  has_any_reviews : bool
}.

(** The dict returned by [get_business_details] (lines 115-122). *)
Record business := Business {
  b_name : string;
  b_phone : string;
  b_website : string;
  b_address : string;
  b_industry : string;
  b_business_status : string
}.

(** The exceptions of the model: the failure of a request and a missing
    key.  Cancellation and errors raised by [status_callback] are not
    modelled. *)
Inductive exn :=
| ClientError                 (* anything [session.get]/[response.json] raises *)
| KeyError (key : string).    (* [d[key]] on a dict without [key] *)

(** Outcome of a computation: a value, a raised exception, or [Fuel] when
    the step budget of the model of [while True] is used up. *)
Inductive outcome (A : Type) :=
| Return (a : A)
| Raise (e : exn)
| Fuel.
Arguments Return {A} a.
Arguments Raise {A} e.
Arguments Fuel {A}.

(** ** The filter chain (lines 103-113) *)

(** [30*24*60*60] *)
Definition recent_window : Z := 30 * 24 * 60 * 60.

(** [any(review['time'] > time.time() - 30*24*60*60 for review in reviews)]:
    stops at the first recent review; a review without ['time'] met before
    that raises [KeyError]. *)
Fixpoint any_recent (now : Z) (rs : list review) : outcome bool :=
  match rs with
  | [] => Return false
  | r :: rs' =>
      match time r with
      | None => Raise (KeyError "time")
      | Some t => if now - recent_window <? t then Return true else any_recent now rs'
      end
  end.

(** Truth value of [result.get('reviews')]: [None] and [[]] are false. *)
Definition has_reviews (d : details) : bool :=
  match reviews d with
  | Some (_ :: _) => true
  | _ => false
  end.

(** [result.get('business_status') != 'OPERATIONAL'] *)
Definition status_not_operational (d : details) : bool :=
  match business_status d with
  | Some s => negb (String.eqb s "OPERATIONAL")
  | None => true
  end.

(** Each of the five [if ...: return None] lines, as the test that makes
    the line return: [Return true] means the record is rejected there. *)
Definition rejects_without_website (f : filters) (d : details) : outcome bool :=
  Return (without_website f && bool_decide (is_Some (website d))).

Definition rejects_operational (f : filters) (d : details) : outcome bool :=
  Return (operational f && status_not_operational d).

Definition rejects_has_phone (f : filters) (d : details) : outcome bool :=
  Return (has_phone f && negb (bool_decide (is_Some (formatted_phone_number d)))).

Definition rejects_has_recent_reviews (now : Z) (f : filters) (d : details) : outcome bool :=
  if has_recent_reviews f then
    if has_reviews d then
      match any_recent now (default [] (reviews d)) with
      | Return recent => Return (negb recent)
      | Raise e => Raise e
      | Fuel => Fuel
      end
    else Return true
  else Return false.

Definition rejects_has_any_reviews (f : filters) (d : details) : outcome bool :=
  Return (has_any_reviews f && negb (has_reviews d)).

(** Lines 115-122. *)
Definition make_business (d : details) : outcome (option business) :=
  match name d with
  | None => Raise (KeyError "name")
  | Some n =>
      Return (Some {|
        b_name := n;
        b_phone := default "N/A" (formatted_phone_number d);
        b_website := default "N/A" (website d);
        b_address := default "N/A" (formatted_address d);
        b_industry := String.concat ", " (default [] (types d));
        b_business_status := default "N/A" (business_status d) |})
  end.

(** A check followed by the rest of the function: [if c: return None]. *)
Definition guard {A : Type} (c : outcome bool) (rest : outcome (option A))
  : outcome (option A) :=
  match c with
  | Return true => Return None
  | Return false => rest
  | Raise e => Raise e
  | Fuel => Fuel
  end.

(** Lines 103-122 of [get_business_details], in source order; [now] is the
    reading of [time.time()]. *)
Definition apply_filters (f : filters) (now : Z) (d : details) : outcome (option business) :=
  guard (rejects_without_website f d) (
  guard (rejects_operational f d) (
  guard (rejects_has_phone f d) (
  guard (rejects_has_recent_reviews now f d) (
  guard (rejects_has_any_reviews f d) (
  make_business d))))).

(** ** The world: clock, response cache, observable events *)

Inductive event :=
| EStatus (msg : string)           (* status_callback(msg) *)
| ECall (url : string)             (* a call of self.fetch(session, url) *)
| EHttp (url : string)             (* session.get(url): one request on the network *)
| ESleep (secs : Z)                (* await asyncio.sleep(secs) *)
| EPrint (msg : string) (e : exn). (* print(f"{msg}: {e}") *)

Record world := World {
  clock : Z;                           (* time.time(), in seconds *)
  memo : gmap string (response * Z);   (* cache of [fetch]: url -> (value, expiry) *)
  trace : list event                   (* events so far, oldest first *)
}.

Definition log (e : event) (w : world) : world :=
  World (clock w) (memo w) (trace w ++ [e]).

(** [await asyncio.sleep(secs)] *)
Definition sleep (secs : Z) (w : world) : world :=
  World (clock w + secs) (memo w) (trace w ++ [ESleep secs]).

(** URLs requested on the network so far, oldest first. *)
Definition requests (tr : list event) : list string :=
  omap (λ e, match e with EHttp u => Some u | _ => None end) tr.

Definition M (A : Type) : Type := world → outcome A * world.

(** A started [fetch]: either it was answered from the cache, or its GET
    is on the network and [reply] is what the remote end answers
    ([None]: the request fails). *)
Inductive pending :=
| Cached (v : response)
| InFlight (url : string) (reply : option response).

(** A child of [asyncio.gather]. *)
Inductive task :=
| Running (p : pending)
| Finished (r : option business).

Definition task_result (t : task) : option business :=
  match t with
  | Finished r => r
  | Running _ => None
  end.

(** [[result['place_id'] for result in json_response['results']]] *)
Fixpoint place_ids (rs : list place) : outcome (list string) :=
  match rs with
  | [] => Return []
  | r :: rs' =>
      match place_id r with
      | None => Raise (KeyError "place_id")
      | Some i =>
          match place_ids rs' with
          | Return ids => Return (i :: ids)
          | Raise e => Raise e
          | Fuel => Fuel
          end
      end
  end.

(** [status_callback(f"Searching page {page}...")] (line 144). *)
Definition status_line (page : nat) : event :=
  EStatus ("Searching page " +:+ pretty page +:+ "...").

(** [ttl=3600] of [@cached(ttl=3600)] (line 68). *)
Definition ttl : Z := 3600.

(** Modelled from the spec: the store behind [@cached], which belongs to
    the aiocache package and is not part of the sources.  Section 4.2: a
    hit is an entry that is present and not expired; entries are keyed by
    the exact URL and expire [ttl] seconds after they were stored. *)
Definition cache_get (url : string) (w : world) : option response :=
  match memo w !! url with
  | Some (v, expiry) => if clock w <? expiry then Some v else None
  | None => None
  end.

Definition cache_set (url : string) (v : response) (w : world) : world :=
  World (clock w) (<[url := (v, clock w + ttl)]> (memo w)) (trace w).

Section Pipeline.

(** [self.api_key], and the remote end: the reply to a GET of a URL given
    the URLs requested before it ([None]: the request raises). *)
Context (api_key : string) (http : list string → string → option response).

(** *** [build_url] (lines 48-66) *)
Definition build_url (location : string) (radius : Z)
    (business_type next_page_token : option string) : string :=
  let base_url :=
    "https://maps.googleapis.com/maps/api/place/nearbysearch/json?location="
      +:+ location +:+ "&radius=" +:+ pretty radius +:+ "&key=" +:+ api_key in
  let base_url :=
    match business_type with
    | Some (String _ _ as t) => base_url +:+ "&type=" +:+ t
    | _ => base_url
    end in
  match next_page_token with
  | Some (String _ _ as t) => base_url +:+ "&pagetoken=" +:+ t
  | _ => base_url
  end.

(** *** [fetch] (lines 68-81) *)

(** Modelled from the spec: the [cached] decorator comes from the aiocache
    package, which is not part of the sources.  Following section 4.2, an
    entry that is present and not expired is returned without a network
    call; otherwise the wrapped body runs (one GET) and its value is stored
    under the exact URL for [ttl] seconds.  A call that raises stores
    nothing.  The coroutine is cut at its only suspension point, the GET:
    [fetch_start] runs up to there, [fetch_finish] from there. *)
Definition fetch_start (url : string) (w : world) : pending * world :=
  let w := log (ECall url) w in
  match cache_get url w with
  | Some v => (Cached v, w)
  | None => (InFlight url (http (requests (trace w)) url), log (EHttp url) w)
  end.

Definition fetch_finish (p : pending) : M response := λ w,
  match p with
  | Cached v => (Return v, w)
  | InFlight url (Some v) => (Return v, cache_set url v w)
  | InFlight url None => (Raise ClientError, w)
  end.

(** [await self.fetch(session, url)] with nothing else running in between. *)
Definition fetch (url : string) : M response := λ w,
  let '(p, w') := fetch_start url w in fetch_finish p w'.

(** *** [get_business_details] (lines 83-122) *)

Definition details_url (place_id : string) : string :=
  "https://maps.googleapis.com/maps/api/place/details/json?place_id="
    +:+ place_id
    +:+ "&fields=name,formatted_phone_number,website,formatted_address,types,business_status,reviews&key="
    +:+ api_key.

(** Lines 95-97, until the coroutine waits for the network. *)
Definition get_business_details_start (place_id : string) (w : world) : pending * world :=
  fetch_start (details_url place_id) w.

(** Lines 97-122, from the moment the reply is there. *)
Definition get_business_details_finish (f : filters) (p : pending) : M (option business) := λ w,
  match fetch_finish p w with
  | (Return v, w') => (apply_filters f (clock w') (default empty_details (result v)), w')
  | (Raise e, w') => (Return None, log (EPrint "Error fetching business details" e) w')
  | (Fuel, w') => (Fuel, w')
  end.

Definition get_business_details (place_id : string) (f : filters) : M (option business) := λ w,
  let '(p, w') := get_business_details_start place_id w in
  get_business_details_finish f p w'.

(** *** [asyncio.gather] over the tasks of one page (lines 155-156) *)

(** All tasks are created and started in list order; each runs until its GET
    is sent (or its cache hit is found). *)
Fixpoint launch (ids : list string) (w : world) : list pending * world :=
  match ids with
  | [] => ([], w)
  | i :: ids' =>
      let '(p, w1) := get_business_details_start i w in
      let '(ps, w2) := launch ids' w1 in
      (p :: ps, w2)
  end.

(** The tasks then finish in the order [order] (indices into the task
    list; an index out of range or already finished is skipped).  The first
    exception ends the [await]. *)
Fixpoint complete (f : filters) (order : list nat) (tasks : list task) : M (list task) := λ w,
  match order with
  | [] => (Return tasks, w)
  | i :: order' =>
      match tasks !! i with
      | Some (Running p) =>
          match get_business_details_finish f p w with
          | (Return r, w') => complete f order' (<[i := Finished r]> tasks) w'
          | (Raise e, w') => (Raise e, w')
          | (Fuel, w') => (Fuel, w')
          end
      | _ => complete f order' tasks w
      end
  end.

(** [await asyncio.gather] of the page tasks.  [sched] is the order in which the
    replies happen to arrive; tasks it does not name finish afterwards in
    launch order.  The value is read off the task list in argument order. *)
Definition gather (f : filters) (sched : list nat) (ids : list string)
  : M (list (option business)) := λ w,
  let '(ps, w1) := launch ids w in
  match complete f (sched ++ seq 0 (length ps)) (Running <$> ps) w1 with
  | (Return tasks, w2) => (Return (task_result <$> tasks), w2)
  | (Raise e, w2) => (Raise e, w2)
  | (Fuel, w2) => (Fuel, w2)
  end.

(** *** [find_businesses] (lines 124-168) *)

Section Run.

Context (location : string) (radius : Z) (business_type : option string)
        (f : filters) (sched : nat → list nat).

(** Lines 152-166: the loop body once the page is fetched; [continue] is
    the next turn of [while True]. *)
Definition page_body (continue : option string → list business → nat → M (list business))
    (json_response : response) (businesses : list business) (page : nat)
  : M (list business) := λ w,
  match results json_response with
  | None => (Return businesses, w)
  | Some rs =>
      match place_ids rs with
      | Return ids =>
          match gather f (sched page) ids w with
          | (Return found, w') =>
              let businesses := businesses ++ omap id found in
              match next_page_token json_response with
              | Some (String _ _ as t) =>
                  continue (Some t) businesses (S page) (sleep 2 w')
              | _ => (Return businesses, w')
              end
          | (Raise e, w') => (Raise e, w')
          | (Fuel, w') => (Fuel, w')
          end
      | Raise e => (Raise e, w)
      | Fuel => (Fuel, w)
      end
  end.

(** Lines 143-166: [fuel] turns of [while True]. *)
Fixpoint find_businesses_loop (fuel : nat) (next_page_token : option string)
    (businesses : list business) (page : nat) : M (list business) := λ w,
  match fuel with
  | O => (Fuel, w)
  | S fuel' =>
      let w := log (status_line page) w in
      match fetch (build_url location radius business_type next_page_token) w with
      | (Return json_response, w') =>
          page_body (find_businesses_loop fuel') json_response businesses page w'
      | (Raise e, w') =>
          (Return businesses, log (EPrint "Error fetching businesses" e) w')
      | (Fuel, w') => (Fuel, w')
      end
  end.

Definition find_businesses (fuel : nat) : M (list business) :=
  find_businesses_loop fuel None [] 1%nat.

End Run.
End Pipeline.

(** A process that has just started: nothing cached, nothing logged. *)
Definition fresh (t0 : Z) : world := World t0 ∅ [].

(** ** The accept/reject decision on its own *)

(** The five checks of lines 104-112, in source order. *)
Definition source_checks (f : filters) (now : Z) (d : details) : list (outcome bool) :=
  [ rejects_without_website f d;
    rejects_operational f d;
    rejects_has_phone f d;
    rejects_has_recent_reviews now f d;
    rejects_has_any_reviews f d ].

(** Running a list of checks in the given order: does control get past
    all of them, to the line that builds the record? *)
Definition passes (checks : list (outcome bool)) : bool :=
  match foldr guard (Return (Some ())) checks with
  | Return (Some _) => true
  | _ => false
  end.

Definition accepts (f : filters) (now : Z) (d : details) : bool :=
  passes (source_checks f now d).

(** What each flag asks of the raw result, stated on the data and not
    through the tests of the code. *)
Definition ok_without_website (d : details) : Prop := website d = None.
Definition ok_operational (d : details) : Prop := business_status d = Some "OPERATIONAL".
Definition ok_has_phone (d : details) : Prop := is_Some (formatted_phone_number d).

(** [has_any_reviews]: the key ['reviews'] is there and its list is not empty. *)
Definition ok_has_any_reviews (d : details) : Prop :=
  ∃ r rs, reviews d = Some (r :: rs).

(** [has_recent_reviews]: some review of the list is less than thirty days
    (2592000 seconds) old at [now], strictly, and every review listed before
    it carries a time. *)
Definition ok_has_recent_reviews (now : Z) (d : details) : Prop :=
  ∃ rs i r t,
    reviews d = Some rs ∧ rs !! i = Some r ∧ time r = Some t ∧
    now - 2592000 < t ∧
    ∀ j r', (j < i)%nat → rs !! j = Some r' → is_Some (time r').

(** ** Mock remote ends and observations on traces *)

Global Instance exn_eq_dec : EqDecision exn.
Proof. solve_decision. Defined.

Global Instance event_eq_dec : EqDecision event.
Proof. solve_decision. Defined.

(** Number of GETs of [url] on the network in a trace. *)
Definition gets (url : string) (tr : list event) : nat :=
  length (filter (λ e, e = EHttp url) tr).

(** URLs of the detail endpoint (line 95). *)
Definition is_details_url (url : string) : bool :=
  String.prefix "https://maps.googleapis.com/maps/api/place/details/json?" url.

(** Calls of [fetch] for a search page, and GETs of a search page. *)
Definition page_calls (tr : list event) : list string :=
  omap (λ e, match e with
             | ECall u => if is_details_url u then None else Some u
             | _ => None
             end) tr.

Definition page_gets (tr : list event) : list string :=
  filter (λ u, is_details_url u = false) (requests tr).

(** A mock remote end: the n-th GET of a search page is answered by the
    n-th element of [pages] ([None], or no such element: the request
    fails); a GET of a detail URL is answered by [details]. *)
Definition scripted (pages : list (option response)) (details : string → option response)
  : list string → string → option response :=
  λ history url,
    if is_details_url url then details url
    else mjoin (pages !! length (filter (λ u, is_details_url u = false) history)).

(** Time passing between two calls. *)
Definition elapse (d : Z) (w : world) : world :=
  World (clock w + d) (memo w) (trace w).

(** Repeated calls of [fetch] for one URL, one after the other, the k-th
    one [d_k] seconds after the one before it. *)
Fixpoint fetch_each (api_http : list string → string → option response)
    (url : string) (delays : list Z) (w : world) : list (outcome response) * world :=
  match delays with
  | [] => ([], w)
  | d :: ds =>
      let '(r, w1) := fetch api_http url (elapse d w) in
      let '(rs, w2) := fetch_each api_http url ds w1 in
      (r :: rs, w2)
  end.

Definition sum_list (l : list Z) : Z := foldr Z.add 0 l.

(** ** Vocabulary for the statements about a page *)

(** The value a started enrichment ends with, read off lines 96-122: it
    depends on the reply and on the clock, not on when the reply comes. *)
Definition task_value (f : filters) (now : Z) (p : pending) : outcome (option business) :=
  match p with
  | Cached v | InFlight _ (Some v) => apply_filters f now (default empty_details (result v))
  | InFlight _ None => Return None
  end.

(** [p] is the enrichment of place [id] started in world [w]. *)
Definition pending_for (api_key : string) (w : world) (id : string) (p : pending) : Prop :=
  match p with
  | Cached v => cache_get (details_url api_key id) w = Some v
  | InFlight u _ => u = details_url api_key id ∧ cache_get u w = None
  end.

(** Events that the enrichment of a page can add to the trace. *)
Definition detail_event (e : event) : Prop :=
  match e with
  | ECall u | EHttp u => is_details_url u = true
  | EPrint msg _ => msg = "Error fetching business details"
  | _ => False
  end.

(** What the enrichment of a page may change: the clock stands still, the
    trace grows by detail events, cache entries of other URLs stay. *)
Record stage (w w' : world) : Prop := Stage {
  stage_clock : clock w' = clock w;
  stage_trace : ∃ evs, trace w' = trace w ++ evs ∧ Forall detail_event evs;
  stage_memo : ∀ u, is_details_url u = false → memo w' !! u = memo w !! u
}.

Definition pending_ok (p : pending) : Prop :=
  match p with
  | Cached _ => True
  | InFlight u _ => is_details_url u = true
  end.

Definition task_ok (t : task) : Prop :=
  match t with
  | Running p => pending_ok p
  | Finished _ => True
  end.

(** Slot [t] of the task list of [gather] belongs to the started
    enrichment [p]: still running, or finished with the value of [p]. *)
Definition slot_of (f : filters) (now : Z) (p : pending) (t : task) : Prop :=
  t = Running p ∨ ∃ r, t = Finished r ∧ task_value f now p = Return r.

Definition finished_at (ts : list task) (i : nat) : Prop :=
  ∃ r, ts !! i = Some (Finished r).

(** ** Vocabulary for the statements about the page loop *)

(** A page request that carries a continuation token. *)
Definition later_page_call (api_key location : string) (radius : Z)
    (business_type : option string) (e : event) : Prop :=
  ∃ t, t ≠ "" ∧ e = ECall (build_url api_key location radius business_type (Some t)).

(** Every page request with a token comes right after a sleep of two
    seconds and the status line of its turn. *)
Definition sleeps_first (api_key location : string) (radius : Z)
    (business_type : option string) (evs : list event) : Prop :=
  ∀ pre e post,
    evs = pre ++ e :: post →
    later_page_call api_key location radius business_type e →
    ∃ pre' msg, pre = pre' ++ [ESleep 2; EStatus msg].

(** ** Vocabulary for scripted runs *)

(** The enrichment of a place whose detail reply is [v] returns (a record
    or [None]) whatever the time: lines 103-122 meet no missing key. *)
Definition enriches (f : filters) (v : response) : Prop :=
  ∀ now, ∃ r, apply_filters f now (default empty_details (result v)) = Return r.

Definition cache_enriches (f : filters) (w : world) : Prop :=
  ∀ u v expiry, is_details_url u = true → memo w !! u = Some (v, expiry) → enriches f v.

Definition pending_enriches (f : filters) (p : pending) : Prop :=
  match p with
  | Cached v | InFlight _ (Some v) => enriches f v
  | InFlight _ None => True
  end.

(** Every element of the result list has its ['place_id']. *)
Definition places_ok (v : response) : Prop :=
  ∀ rs, results v = Some rs → Forall (λ p, is_Some (place_id p)) rs.

(** A page that is followed by another one: it has a result list and a
    non-empty continuation token. *)
Definition has_next (v : response) : Prop :=
  is_Some (results v) ∧ ∃ t, next_page_token v = Some t ∧ t ≠ "".

(** The line printed when a page fetch fails (line 149). *)
Definition page_error (e : event) : Prop :=
  ∃ x, e = EPrint "Error fetching businesses" x.

(** ** Fixtures for concrete runs *)

Module Fixture.

Definition key : string := "K".
Definition location : string := "39.95,-75.16".
Definition radius : Z := 10000.
Definition business_type : option string := Some "plumber".

Definition no_filters : filters := Filters false false false false false.
Definition only_operational : filters := Filters false true false false false.
Definition only_without_website : filters := Filters true false false false false.

(** Replies arrive in launch order on every page. *)
Definition in_order : nat → list nat := λ _, [].

(** A detail result with a name and nothing else. *)
Definition acme : details :=
  Details (Some "Acme") None None None None None None.

(** The same with a ['website'] key holding the empty string. *)
Definition acme_blank_site : details :=
  Details (Some "Acme") None (Some "") None None None None.

Definition acme_record : business :=
  Business "Acme" "N/A" "N/A" "N/A" "" "N/A".

Definition detail_reply (d : details) : response := Response None None (Some d).

(** A detail reply without ['result'], as the API sends for an unknown place
    ([{"status": "NOT_FOUND"}]). *)
Definition not_found_reply : response := Response None None None.

Definition search_reply (ids : list string) (token : option string) : response :=
  Response (Some (Place ∘ Some <$> ids)) token None.

(** Every place is Acme. *)
Definition all_acme : string → option response := λ _, Some (detail_reply acme).

(** Place "p2" is unknown, every other place is Acme. *)
Definition p2_unknown : string → option response :=
  λ url, if String.eqb url (details_url key "p2")
         then Some not_found_reply else Some (detail_reply acme).

Definition search_url (token : option string) : string :=
  build_url key location radius business_type token.

Definition only_recent_reviews : filters := Filters false false false true false.

(** Acme with one review, written at time 100. *)
Definition acme_reviewed : details :=
  Details (Some "Acme") None None None None None (Some [Review (Some 100)]).

(** Three successful search replies, the last one without a token; the
    first two carry the same token. *)
Definition repeated_token : list (option response) :=
  [Some (search_reply [] (Some "A"));
   Some (search_reply [] (Some "A"));
   Some (search_reply ["p1"] None)].

(** A successful search reply without a result list that still carries a
    token, followed by a last page. *)
Definition no_result_list : list (option response) :=
  [Some (Response None (Some "A") None); Some (search_reply ["p1"] None)].

(** A one-page script whose only result has no ['place_id']. *)
Definition place_without_id : list (option response) :=
  [Some (Response (Some [Place None]) None None)].

(** The first page, with token "A", then the last page. *)
Definition two_pages : list (option response) :=
  [Some (search_reply [] (Some "A")); Some (search_reply ["p1"] None)].

Definition run (http : list string → string → option response) (f : filters) (fuel : nat)
  : outcome (list business) * world :=
  find_businesses key http location radius business_type f in_order fuel (fresh 0).

End Fixture.

(** ** Vocabulary for the further properties *)

(** [b] is the record of some detail result that the filters accept. *)
Definition built_from (f : filters) (b : business) : Prop :=
  ∃ now d, accepts f now d = true ∧ make_business d = Return (Some b).

(** The messages passed to [status_callback], oldest first. *)
Definition status_lines (tr : list event) : list string :=
  omap (λ e, match e with EStatus msg => Some msg | _ => None end) tr.

(** The missing keys on which lines 110, 116 and 155 raise. *)
Definition key_errors : list exn :=
  [KeyError "place_id"; KeyError "name"; KeyError "time"].

(** The identifiers listed by a search reply, in order. *)
Definition ids_of (v : response) : list string :=
  omap place_id (default [] (results v)).

(** Against a remote end whose detail replies are given by [details]: the
    record, if any, that the enrichment of place [id] yields at time [now]
    (lines 95-122; a failed request gives [None]). *)
Definition enrich (api_key : string) (f : filters) (details : string → option response)
    (now : Z) (id : string) : option business :=
  match details (details_url api_key id) with
  | Some v =>
      match apply_filters f now (default empty_details (result v)) with
      | Return r => r
      | _ => None
      end
  | None => None
  end.

(** The cache holds, for detail URLs, nothing but replies of [details]. *)
Definition cache_agrees (details : string → option response) (w : world) : Prop :=
  ∀ u v expiry, is_details_url u = true → memo w !! u = Some (v, expiry) → details u = Some v.

Definition pending_agrees (api_key : string) (details : string → option response)
    (id : string) (p : pending) : Prop :=
  match p with
  | Cached v => details (details_url api_key id) = Some v
  | InFlight u r => u = details_url api_key id ∧ r = details u
  end.

(** ** The caller: [write_to_csv] and [async_search] (lines 170-188, 281-291) *)

(** [fieldnames] (line 179). *)
Definition fieldnames : list string :=
  ["name"; "phone"; "website"; "address"; "industry"; "business_status"].

(** The values [DictWriter.writerow] takes from a business, in the order
    of [fieldnames]. *)
Definition csv_row (b : business) : list string :=
  [b_name b; b_phone b; b_website b; b_address b; b_industry b; b_business_status b].

(** The rows [write_to_csv] hands to the writer: the header, then one row
    per business. *)
Definition csv_rows (businesses : list business) : list (list string) :=
  fieldnames :: (csv_row <$> businesses).

(** What [async_search] does after the search: a call of [write_to_csv]
    (which catches its own [IOError]), and the final [status_var.set]. *)
Inductive gui_effect :=
| WriteCsv (filename : string) (rows : list (list string))
| SetStatus (msg : string).

Definition async_search (api_key : string) (http : list string → string → option response)
    (location : string) (radius : Z) (business_type : option string)
    (f : filters) (sched : nat → list nat) (fuel : nat)
  : world → outcome (list gui_effect) * world := λ w,
  match find_businesses api_key http location radius business_type f sched fuel w with
  | (Return [], w') =>
      (Return [SetStatus "No businesses found based on your criteria."], w')
  | (Return businesses, w') =>
      (Return [WriteCsv "businesses.csv" (csv_rows businesses);
               SetStatus ("Found " +:+ pretty (length businesses)
                            +:+ " businesses. Data written to businesses.csv")], w')
  | (Raise e, w') => (Raise e, w')
  | (Fuel, w') => (Fuel, w')
  end.

(** * Properties *)

(** Closing goals by evaluation: conjunctions are split, each part is
    computed.  A result paired with a world is compared on the result. *)
Ltac by_computation :=
  repeat (match goal with |- _ ∧ _ => split end); vm_compute; reflexivity.

Lemma pair_from_fst {A B : Type} (p : A * B) (a : A) : p.1 = a → p = (a, p.2).
Proof. destruct p as [x y]. simpl. by intros ->. Qed.

Ltac by_run := apply pair_from_fst; vm_compute; reflexivity.

(** ** The filter chain *)

Lemma passes_cons (c : outcome bool) (cs : list (outcome bool)) :
  passes (c :: cs) = match c with Return false => passes cs | _ => false end.
Proof. unfold passes; simpl. by destruct c as [[]| |]. Qed.

Lemma passes_Forall (cs : list (outcome bool)) :
  passes cs = true ↔ Forall (λ c, c = Return false) cs.
Proof.
  induction cs as [|c cs IH]; [by split|].
  rewrite passes_cons, Forall_cons, <- IH.
  destruct c as [[]| |]; split; try done; try (by intros [? _]); by intros [_ ?].
Qed.

Lemma passes_run {A} (rest : outcome (option A)) (cs : list (outcome bool)) :
  passes cs = true → foldr guard rest cs = rest.
Proof.
  induction cs as [|c cs IH]; [done|].
  rewrite passes_cons. destruct c as [[]| |]; simpl; auto; discriminate.
Qed.

Lemma fails_run {A} (rest : outcome (option A)) (cs : list (outcome bool)) :
  passes cs = false → ∀ a, foldr guard rest cs ≠ Return (Some a).
Proof.
  induction cs as [|c cs IH]; [done|].
  rewrite passes_cons. destruct c as [[]| |]; simpl; auto; discriminate.
Qed.

Lemma apply_filters_chain f now d :
  apply_filters f now d = foldr guard (make_business d) (source_checks f now d).
Proof. reflexivity. Qed.

Lemma without_website_line f d :
  rejects_without_website f d = Return false ↔ (without_website f = true → ok_without_website d).
Proof.
  unfold rejects_without_website, ok_without_website.
  destruct (without_website f), (website d) as [s|]; simpl; split; try done.
  intros H. by specialize (H eq_refl).
Qed.

Lemma status_not_operational_false d :
  status_not_operational d = false ↔ business_status d = Some "OPERATIONAL".
Proof.
  unfold status_not_operational. destruct (business_status d) as [s|]; [|done].
  rewrite negb_false_iff, String.eqb_eq. naive_solver.
Qed.

Lemma operational_line f d :
  rejects_operational f d = Return false ↔ (operational f = true → ok_operational d).
Proof.
  unfold rejects_operational, ok_operational.
  destruct (operational f); simpl.
  - rewrite <- status_not_operational_false. split; [by intros [= ->]|by intros ->].
  - by split.
Qed.

Lemma has_phone_line f d :
  rejects_has_phone f d = Return false ↔ (has_phone f = true → ok_has_phone d).
Proof.
  unfold rejects_has_phone, ok_has_phone.
  destruct (has_phone f), (formatted_phone_number d) as [s|]; simpl; split;
    try done; try (intros _ _; by exists s).
  intros H. by destruct (H eq_refl) as [? [=]].
Qed.

Lemma any_recent_true now rs :
  any_recent now rs = Return true
  ↔ ∃ i r t, rs !! i = Some r ∧ time r = Some t ∧ now - 2592000 < t ∧
             ∀ j r', (j < i)%nat → rs !! j = Some r' → is_Some (time r').
Proof.
  induction rs as [|r rs IH]; simpl.
  - split; [done|]. intros (i & r & t & H & _). by rewrite lookup_nil in H.
  - destruct (time r) as [t|] eqn:Ht.
    + change recent_window with 2592000.
      destruct (Z.ltb_spec (now - 2592000) t) as [Hlt|Hge].
      * split; [|done]. intros _. exists 0%nat, r, t.
        split; [done|]. split; [done|]. split; [done|]. intros j r' Hj. lia.
      * rewrite IH. split.
        -- intros (i & r0 & t0 & Hi & Ht0 & Hlt & Hall). exists (S i), r0, t0.
           split; [done|]. split; [done|]. split; [done|].
           intros [|j] r' Hj Hr'; simpl in Hr'; [simplify_eq; eauto|].
           apply (Hall j r'); [lia|done].
        -- intros (i & r0 & t0 & Hi & Ht0 & Hlt & Hall).
           destruct i as [|i]; simpl in Hi; [simplify_eq; lia|].
           exists i, r0, t0. split; [done|]. split; [done|]. split; [done|].
           intros j r' Hj Hr'. apply (Hall (S j) r'); [lia|done].
    + split; [done|]. intros (i & r0 & t0 & Hi & Ht0 & Hlt & Hall).
      destruct i as [|i]; simpl in Hi; [simplify_eq|].
      destruct (Hall 0%nat r) as [t' Ht']; [lia|done|congruence].
Qed.

Lemma ok_has_any_reviews_test d : ok_has_any_reviews d ↔ has_reviews d = true.
Proof.
  unfold ok_has_any_reviews, has_reviews. split.
  - by intros (r & rs & ->).
  - destruct (reviews d) as [[|r rs]|]; [done| |done]. intros _. by exists r, rs.
Qed.

Lemma ok_has_recent_reviews_scan now d :
  ok_has_recent_reviews now d
  ↔ has_reviews d = true ∧ any_recent now (default [] (reviews d)) = Return true.
Proof.
  unfold ok_has_recent_reviews, has_reviews. rewrite any_recent_true. split.
  - intros (rs & i & r & t & -> & Hi & H). simpl. split; [|by exists i, r, t].
    destruct rs; [by rewrite lookup_nil in Hi|done].
  - intros [_ (i & r & t & Hi & H)]. destruct (reviews d) as [rs|]; simpl in *.
    + by exists rs, i, r, t.
    + by rewrite lookup_nil in Hi.
Qed.

Lemma has_recent_reviews_line now f d :
  rejects_has_recent_reviews now f d = Return false
  ↔ (has_recent_reviews f = true → ok_has_recent_reviews now d).
Proof.
  rewrite ok_has_recent_reviews_scan. unfold rejects_has_recent_reviews.
  destruct (has_recent_reviews f); [|by split].
  destruct (has_reviews d); [|split; [done|intros H; by destruct (H eq_refl)]].
  destruct (any_recent now _) as [[]| |]; simpl; split; try done;
    intros H; by destruct (H eq_refl).
Qed.

Lemma has_any_reviews_line f d :
  rejects_has_any_reviews f d = Return false ↔ (has_any_reviews f = true → ok_has_any_reviews d).
Proof.
  rewrite ok_has_any_reviews_test. unfold rejects_has_any_reviews.
  destruct (has_any_reviews f), (has_reviews d); simpl; split; try done.
  intros H. by specialize (H eq_refl).
Qed.

(** C6 (as the code has it): the decision of lines 104-112 is a function of
    the filters, the raw result and the reading of [time.time()] at line
    110, which matters only when [has_recent_reviews] is on.  It is the
    conjunction of what the active flags ask (a flag that is off asks
    nothing), it is the same for every order of the five checks, and it
    alone decides whether the function goes on to build the record. *)
Theorem filter_decision_is_conjunction (f : filters) (now : Z) (d : details) :
  (accepts f now d = true ↔
     (without_website f = true → ok_without_website d) ∧
     (operational f = true → ok_operational d) ∧
     (has_phone f = true → ok_has_phone d) ∧
     (has_recent_reviews f = true → ok_has_recent_reviews now d) ∧
     (has_any_reviews f = true → ok_has_any_reviews d)) ∧
  (∀ checks, checks ≡ₚ source_checks f now d → passes checks = accepts f now d) ∧
  (accepts f now d = true → apply_filters f now d = make_business d) ∧
  (accepts f now d = false → ∀ b, apply_filters f now d ≠ Return (Some b)) ∧
  (has_recent_reviews f = false → ∀ now', accepts f now' d = accepts f now d).
Proof.
  split; [|split; [|split; [|split]]].
  - unfold accepts. rewrite passes_Forall. unfold source_checks.
    rewrite !Forall_cons, without_website_line, operational_line, has_phone_line,
      has_recent_reviews_line, has_any_reviews_line.
    pose proof (Forall_nil (λ c : outcome bool, c = Return false)). tauto.
  - intros checks Hp. unfold accepts.
    apply eq_true_iff_eq. rewrite !passes_Forall. by rewrite Hp.
  - intros H. rewrite apply_filters_chain. by apply passes_run.
  - intros H. rewrite apply_filters_chain. by apply fails_run.
  - intros H now'. unfold accepts, source_checks, rejects_has_recent_reviews. by rewrite H.
Qed.

(** C1 (as the code has it): with [operational] on, line 106 lets a result
    through exactly when its status is present and equal to "OPERATIONAL";
    a result whose status is absent or different yields no record. *)
Theorem operational_requires_status (f : filters) (now : Z) (d : details) :
  operational f = true →
  (rejects_operational f d = Return false ↔ business_status d = Some "OPERATIONAL") ∧
  (business_status d ≠ Some "OPERATIONAL" → apply_filters f now d = Return None).
Proof.
  intros Hop. split.
  - rewrite operational_line. unfold ok_operational. naive_solver.
  - intros Hne. unfold apply_filters, rejects_without_website, rejects_operational.
    rewrite Hop. destruct (without_website f && _); simpl; [done|].
    destruct (status_not_operational d) eqn:E; [done|].
    by apply status_not_operational_false in E.
Qed.

(** C5 (as the code has it): with [without_website] on, line 104 rejects
    exactly when the key ['website'] is present, whatever its value, the
    empty string included. *)
Theorem without_website_tests_presence (f : filters) (now : Z) (d : details) :
  without_website f = true →
  (rejects_without_website f d = Return true ↔ is_Some (website d)) ∧
  (is_Some (website d) → apply_filters f now d = Return None).
Proof.
  intros Hw. unfold apply_filters, rejects_without_website. rewrite Hw. simpl.
  split.
  - destruct (website d); simpl; split; eauto; try done.
  - intros [s ->]. done.
Qed.

(** ** URLs *)

Lemma append_same_l (s t : string) : s +:+ t = s → t = "".
Proof.
  induction s as [|a s IH]; intros H; [exact H|].
  change (String a (s +:+ t) = String a s) in H. apply IH. by injection H.
Qed.

Lemma details_url_is_details api_key id : is_details_url (details_url api_key id) = true.
Proof. reflexivity. Qed.

Lemma build_url_not_details api_key location radius business_type tok :
  is_details_url (build_url api_key location radius business_type tok) = false.
Proof. destruct business_type as [[|??]|], tok as [[|??]|]; reflexivity. Qed.

Lemma build_url_first_ne api_key location radius business_type t :
  t ≠ "" →
  build_url api_key location radius business_type None
  ≠ build_url api_key location radius business_type (Some t).
Proof.
  intros Ht. destruct t as [|a t]; [done|]. unfold build_url.
  intros H. symmetry in H. apply append_same_l in H. discriminate H.
Qed.

Lemma build_url_token_inj api_key location radius business_type t1 t2 :
  t1 ≠ "" → t2 ≠ "" →
  build_url api_key location radius business_type (Some t1)
  = build_url api_key location radius business_type (Some t2) →
  t1 = t2.
Proof.
  intros H1 H2. destruct t1 as [|a1 t1], t2 as [|a2 t2]; try done.
  unfold build_url. intros H. apply (inj (String.app _)) in H.
  by apply (inj (String.app "&pagetoken=")) in H.
Qed.

(** ** The cached [fetch] *)

Lemma requests_app tr1 tr2 : requests (tr1 ++ tr2) = requests tr1 ++ requests tr2.
Proof. apply omap_app. Qed.

Lemma gets_app url tr1 tr2 : gets url (tr1 ++ tr2) = (gets url tr1 + gets url tr2)%nat.
Proof. unfold gets. by rewrite filter_app, length_app. Qed.

Lemma gets_calls url n : gets url (replicate n (ECall url)) = 0%nat.
Proof. induction n as [|n IH]; [done|]. exact IH. Qed.

Section Fetch.

Context (api_key : string) (http : list string → string → option response).

Lemma fetch_hit url w v :
  cache_get url w = Some v → fetch http url w = (Return v, log (ECall url) w).
Proof.
  intros H. unfold fetch, fetch_start.
  change (cache_get url (log (ECall url) w)) with (cache_get url w). by rewrite H.
Qed.

Lemma fetch_miss url w :
  cache_get url w = None →
  fetch http url w =
    match http (requests (trace w)) url with
    | Some v => (Return v, cache_set url v (log (EHttp url) (log (ECall url) w)))
    | None => (Raise ClientError, log (EHttp url) (log (ECall url) w))
    end.
Proof.
  intros H. unfold fetch, fetch_start.
  change (cache_get url (log (ECall url) w)) with (cache_get url w). rewrite H.
  change (trace (log (ECall url) w)) with (trace w ++ [ECall url]).
  rewrite requests_app. simpl. rewrite app_nil_r.
  by destruct (http _ _).
Qed.

(** While the stored entry is live, every further call is answered from the
    cache: the same value, one [ECall] each and nothing else. *)
Lemma fetch_each_live url v expiry delays w :
  memo w !! url = Some (v, expiry) →
  Forall (λ d, 0 ≤ d) delays →
  clock w + sum_list delays < expiry →
  fetch_each http url delays w =
    (replicate (length delays) (Return v),
     World (clock w + sum_list delays) (memo w)
           (trace w ++ replicate (length delays) (ECall url))).
Proof.
  revert w. induction delays as [|d ds IH]; intros w Hm Hpos Hlt; simpl in *.
  - rewrite Z.add_0_r, app_nil_r. by destruct w.
  - apply Forall_cons in Hpos as [Hd Hds].
    assert (0 ≤ sum_list ds) as Hs.
    { clear -Hds. induction Hds; simpl; lia. }
    rewrite (fetch_hit url (elapse d w) v).
    2:{ unfold cache_get; simpl. rewrite Hm.
        destruct (Z.ltb_spec (clock w + d) expiry); [done|lia]. }
    rewrite IH; simpl; [|done|done|lia].
    f_equal. f_equal; [lia|]. by rewrite <- app_assoc.
Qed.

End Fetch.

Lemma gets_call_get url tr :
  gets url ((tr ++ [ECall url]) ++ [EHttp url]) = S (gets url tr).
Proof.
  assert (gets url [EHttp url] = 1%nat) as Hget.
  { unfold gets. by rewrite filter_cons, decide_True. }
  rewrite !gets_app, Hget. change (gets url [ECall url]) with 0%nat. lia.
Qed.

Lemma sum_list_nonneg delays : Forall (λ d, 0 ≤ d) delays → 0 ≤ sum_list delays.
Proof. induction 1; simpl; lia. Qed.

(** From any state of the cache, calls that all fall within [ttl] seconds
    of the first one send at most one GET, provided the remote end answers. *)
Lemma fetch_each_at_most_one http url delays : ∀ d w,
  (∀ h, is_Some (http h url)) →
  Forall (λ d, 0 ≤ d) delays →
  sum_list delays < ttl →
  (gets url (trace (fetch_each http url (d :: delays) w).2) ≤ S (gets url (trace w)))%nat.
Proof.
  induction delays as [|d' ds IH]; intros d w Hup Hpos Hsum.
  - simpl. destruct (cache_get url (elapse d w)) as [v|] eqn:Hc.
    + rewrite (fetch_hit _ _ _ v) by done. simpl. rewrite gets_app.
      change (gets url [ECall url]) with 0%nat. lia.
    + rewrite fetch_miss by done. destruct (http _ url); simpl; rewrite gets_call_get; lia.
  - apply Forall_cons in Hpos as [Hd' Hds].
    pose proof (sum_list_nonneg ds Hds) as Hnn. simpl in Hsum.
    change (fetch_each http url (d :: d' :: ds) w)
      with (let '(r, w1) := fetch http url (elapse d w) in
            let '(rs, w2) := fetch_each http url (d' :: ds) w1 in (r :: rs, w2)).
    destruct (cache_get url (elapse d w)) as [v|] eqn:Hc.
    + rewrite (fetch_hit _ _ _ v) by done.
      specialize (IH d' (log (ECall url) (elapse d w)) Hup Hds ltac:(lia)).
      destruct (fetch_each http url (d' :: ds) _) as [rs w2]. simpl in *.
      rewrite gets_app in IH. change (gets url [ECall url]) with 0%nat in IH. lia.
    + rewrite fetch_miss by done.
      destruct (Hup (requests (trace (elapse d w)))) as [v Hv]. rewrite Hv.
      rewrite (fetch_each_live http url v (clock w + d + ttl) (d' :: ds));
        [|apply lookup_insert_eq|by constructor|simpl; lia].
      simpl.
      change (ECall url :: replicate (length ds) (ECall url))
        with (replicate (S (length ds)) (ECall url)).
      rewrite gets_app, gets_calls, gets_call_get. lia.
Qed.

(** C7: repeated calls of the cached [fetch] for one URL, made one after
    the other against a remote end that answers, with [ttl] = 3600
    seconds.  Calls that all fall within [ttl] seconds of the first send
    at most one GET.  When the first call finds no live entry, its GET is
    the only one: the later calls return the stored value and only add
    their own [ECall] to the trace.  A call made once [ttl] seconds have
    passed since then sends a new GET. *)
Theorem cache_idempotence_within_ttl
    (http : list string → string → option response)
    (url : string) (w w1 w2 : world) (r : outcome response)
    (delays : list Z) (rs : list (outcome response)) :
  (∀ h, is_Some (http h url)) →
  Forall (λ d, 0 ≤ d) delays →
  sum_list delays < ttl →
  fetch http url w = (r, w1) →
  fetch_each http url delays w1 = (rs, w2) →
  ttl = 3600 ∧
  (gets url (trace w2) ≤ S (gets url (trace w)))%nat ∧
  (cache_get url w = None →
     ∃ v, r = Return v ∧
       gets url (trace w1) = S (gets url (trace w)) ∧
       rs = replicate (length delays) (Return v) ∧
       trace w2 = trace w1 ++ replicate (length delays) (ECall url) ∧
       ∀ d, ttl ≤ sum_list delays + d →
            gets url (trace (fetch http url (elapse d w2)).2) = S (S (gets url (trace w)))).
Proof.
  intros Hup Hpos Hsum Hfirst Hrest. split; [done|]. split.
  - pose proof (fetch_each_at_most_one http url delays 0 w Hup Hpos Hsum) as H.
    simpl in H. replace (elapse 0 w) with w in H.
    2:{ destruct w; unfold elapse; simpl; f_equal; lia. }
    by rewrite Hfirst, Hrest in H.
  - intros Hmiss. rewrite fetch_miss in Hfirst by done.
    destruct (Hup (requests (trace w))) as [v Hv]. rewrite Hv in Hfirst.
    injection Hfirst as <- <-. exists v.
    rewrite (fetch_each_live http url v (clock w + ttl) delays) in Hrest;
      [|apply lookup_insert_eq|done|simpl; lia].
    injection Hrest as <- <-. simpl.
    split; [done|]. split; [apply gets_call_get|]. split; [done|]. split; [done|].
    intros d Hd. rewrite fetch_miss.
    + case_match; simpl;
        by rewrite gets_call_get, gets_app, gets_calls, gets_call_get, Nat.add_0_r.
    + unfold cache_get; simpl. rewrite lookup_insert_eq.
      destruct (Z.ltb_spec (clock w + sum_list delays + d) (clock w + ttl)); [lia|done].
Qed.

(** ** The enrichment stage of a page *)

Lemma stage_refl w : stage w w.
Proof.
  split; [done| |done]. exists []. by rewrite app_nil_r.
Qed.

Lemma stage_trans w1 w2 w3 : stage w1 w2 → stage w2 w3 → stage w1 w3.
Proof.
  intros [Hc1 (e1 & Ht1 & He1) Hm1] [Hc2 (e2 & Ht2 & He2) Hm2]. split.
  - congruence.
  - exists (e1 ++ e2). split; [by rewrite Ht2, Ht1, app_assoc|by apply Forall_app].
  - intros u Hu. by rewrite Hm2, Hm1.
Qed.

Section Stage.

Context (api_key : string) (http : list string → string → option response).

Lemma start_stage id w p w' :
  get_business_details_start api_key http id w = (p, w') →
  stage w w' ∧ pending_ok p ∧ pending_for api_key w id p.
Proof.
  unfold get_business_details_start, fetch_start.
  change (cache_get (details_url api_key id) (log (ECall (details_url api_key id)) w))
    with (cache_get (details_url api_key id) w).
  destruct (cache_get _ w) as [v|] eqn:Hc; intros [= <- <-].
  - split; [|done]. split; [done| |done].
    exists [ECall (details_url api_key id)]. split; [done|].
    repeat constructor.
  - split; [|done]. split; [done| |done].
    exists [ECall (details_url api_key id); EHttp (details_url api_key id)].
    split; [simpl; by rewrite <- app_assoc|]. repeat constructor.
Qed.

Lemma finish_stage f p w r w' :
  pending_ok p →
  get_business_details_finish f p w = (r, w') →
  stage w w' ∧ r = task_value f (clock w) p.
Proof.
  intros Hok. unfold get_business_details_finish, fetch_finish.
  destruct p as [v|u [v|]]; intros [= <- <-].
  - split; [apply stage_refl|done].
  - split; [|done]. split; [done|exists []; by rewrite app_nil_r|].
    intros u' Hu'. simpl. apply lookup_insert_ne. intros ->. simpl in Hok. congruence.
  - split; [|done]. split; [done| |done].
    eexists [_]. split; [done|]. by repeat constructor.
Qed.

Lemma launch_stage ids w ps w' :
  launch api_key http ids w = (ps, w') →
  stage w w' ∧ Forall pending_ok ps ∧ length ps = length ids.
Proof.
  revert w ps w'. induction ids as [|i ids IH]; intros w ps w'; simpl.
  - intros [= <- <-]. split; [apply stage_refl|]. by split.
  - destruct (get_business_details_start _ _ i w) as [p w1] eqn:H1.
    destruct (launch _ _ ids w1) as [ps' w2] eqn:H2.
    intros [= <- <-].
    apply start_stage in H1 as (Hs1 & Hp & _). apply IH in H2 as (Hs2 & Hps & Hlen).
    split; [by eapply stage_trans|]. split; [by constructor|]. simpl. by rewrite Hlen.
Qed.

Lemma complete_stage f order ts w r w' :
  Forall task_ok ts →
  complete f order ts w = (r, w') →
  stage w w'.
Proof.
  revert ts w. induction order as [|i order IH]; intros ts w Hts; simpl.
  - intros [= <- <-]. apply stage_refl.
  - destruct (ts !! i) as [[p|b]|] eqn:Hi; [|by apply IH..].
    assert (pending_ok p) as Hp.
    { apply (Forall_lookup_1 _ _ _ _ Hts Hi). }
    destruct (get_business_details_finish f p w) as [[b|e|] w1] eqn:Hf;
      apply finish_stage in Hf as [Hs _]; try done.
    + intros H. apply IH in H; [by eapply stage_trans|].
      apply Forall_insert; [done|constructor].
    + by intros [= <- <-].
    + by intros [= <- <-].
Qed.

Lemma gather_stage f sched ids w r w' :
  gather api_key http f sched ids w = (r, w') → stage w w'.
Proof.
  unfold gather. destruct (launch _ _ ids w) as [ps w1] eqn:Hl.
  apply launch_stage in Hl as (Hs1 & Hps & _).
  destruct (complete f _ _ w1) as [[ts|e|] w2] eqn:Hc; intros [= <- <-];
    (eapply stage_trans; [exact Hs1|]);
    (eapply complete_stage; [|exact Hc]);
    apply Forall_fmap; by eapply Forall_impl.
Qed.

End Stage.

(** ** [gather] returns the values in argument order *)

Lemma launch_frame api_key http ids w :
  clock (launch api_key http ids w).2 = clock w ∧
  memo (launch api_key http ids w).2 = memo w.
Proof.
  revert w. induction ids as [|i ids IH]; intros w; simpl; [done|].
  unfold get_business_details_start, fetch_start.
  destruct (cache_get _ _);
    match goal with |- context [launch _ _ ids ?w1] =>
      specialize (IH w1); destruct (launch _ _ ids w1) as [ps w2] end;
    simpl in *; destruct IH as [-> ->]; done.
Qed.

Lemma launch_pending_for api_key http ids w :
  Forall2 (pending_for api_key w) ids (launch api_key http ids w).1.
Proof.
  assert (∀ w0, clock w0 = clock w → memo w0 = memo w →
            Forall2 (pending_for api_key w) ids (launch api_key http ids w0).1) as H;
    [|by apply H].
  induction ids as [|i ids IH]; intros w0 Hc Hm; simpl; [constructor|].
  destruct (get_business_details_start _ _ i w0) as [p w1] eqn:H1.
  destruct (launch _ _ ids w1) as [ps w2] eqn:H2. simpl.
  apply start_stage in H1 as H1'. destruct H1' as ([Hc1 _ _] & _ & Hp).
  assert (memo w1 = memo w0) as Hm1.
  { revert H1. unfold get_business_details_start, fetch_start.
    destruct (cache_get _ _); by intros [= <- <-]. }
  constructor.
  - revert Hp. unfold pending_for, cache_get. rewrite Hc, Hm. done.
  - specialize (IH w1). rewrite H2 in IH. apply IH; congruence.
Qed.

Lemma complete_slots f now ps order ts w ts' w' :
  clock w = now →
  Forall pending_ok ps →
  Forall2 (slot_of f now) ps ts →
  complete f order ts w = (Return ts', w') →
  Forall2 (slot_of f now) ps ts'.
Proof.
  intros Hnow Hps. revert ts w Hnow.
  induction order as [|i order IH]; intros ts w Hnow Hrel; simpl.
  - by intros [= <- <-].
  - destruct (ts !! i) as [[p|b]|] eqn:Hi; [|by apply IH..].
    destruct (Forall2_lookup_r _ _ _ _ _ Hrel Hi) as (p' & Hpi & Hslot).
    destruct Hslot as [[= <-]|(r & [=] & _)].
    assert (pending_ok p) as Hp by apply (Forall_lookup_1 _ _ _ _ Hps Hpi).
    destruct (get_business_details_finish f p w) as [[b|e|] w1] eqn:Hf; [|done..].
    apply finish_stage in Hf as [[Hc _ _] Hv]; [|done].
    apply IH; [congruence|].
    rewrite <- (list_insert_id ps i p) by done.
    apply Forall2_insert; [done|]. right. exists b. split; [done|]. congruence.
Qed.

Lemma complete_finished f order ts w ts' w' :
  complete f order ts w = (Return ts', w') →
  length ts' = length ts ∧
  (∀ i, finished_at ts i → finished_at ts' i) ∧
  (∀ i, i ∈ order → (i < length ts)%nat → finished_at ts' i).
Proof.
  revert ts w. induction order as [|i order IH]; intros ts w; simpl.
  - intros [= <- <-]. split; [done|]. split; [done|]. intros i Hi. by apply elem_of_nil in Hi.
  - destruct (ts !! i) as [[p|b]|] eqn:Hi.
    + destruct (get_business_details_finish f p w) as [[b|e|] w1] eqn:Hf; [|done..].
      intros H. apply IH in H as (Hlen & Hkeep & Hnew).
      rewrite length_insert in Hlen, Hnew.
      assert (finished_at (<[i:=Finished b]> ts) i) as Hdone.
      { exists b. apply list_lookup_insert_eq. by eapply lookup_lt_Some. }
      split; [done|]. split.
      * intros j (r & Hj). apply Hkeep. exists r.
        destruct (decide (i = j)) as [->|Hne]; [congruence|].
        by rewrite list_lookup_insert_ne.
      * intros j Hj Hlt. apply elem_of_cons in Hj as [->|Hj]; [by apply Hkeep|by apply Hnew].
    + intros H. apply IH in H as (Hlen & Hkeep & Hnew).
      split; [done|]. split; [done|].
      intros j Hj Hlt. apply elem_of_cons in Hj as [->|Hj]; [|by apply Hnew].
      apply Hkeep. by exists b.
    + intros H. apply IH in H as (Hlen & Hkeep & Hnew).
      split; [done|]. split; [done|].
      intros j Hj Hlt. apply elem_of_cons in Hj as [->|Hj]; [|by apply Hnew].
      apply lookup_ge_None in Hi. lia.
Qed.

Lemma gather_values api_key http f sched ids w found w' :
  gather api_key http f sched ids w = (Return found, w') →
  Forall2 (λ p r, task_value f (clock w) p = Return r)
          (launch api_key http ids w).1 found.
Proof.
  unfold gather. pose proof (launch_frame api_key http ids w) as [Hc _].
  destruct (launch _ _ ids w) as [ps w1] eqn:Hl. simpl in *.
  apply launch_stage in Hl as (_ & Hps & _).
  destruct (complete f _ _ w1) as [[ts|e|] w2] eqn:Hcomp; intros [= <- <-].
  pose proof Hcomp as Hfin. apply complete_finished in Hfin as (Hlen & _ & Hall).
  apply (complete_slots f (clock w) ps) in Hcomp; [|done|done|].
  2:{ apply Forall2_fmap_r, Forall_Forall2_diag, Forall_forall. intros p _. by left. }
  rewrite length_fmap in Hlen, Hall.
  apply Forall2_fmap_r, Forall2_same_length_lookup. split.
  { by apply Forall2_length in Hcomp. }
  intros i p t Hp Ht.
  destruct (Forall2_lookup_lr _ _ _ _ _ _ Hcomp Hp Ht) as [->|(r & -> & Hv)]; [|done].
  destruct (Hall i) as (r & Hr).
  - apply elem_of_app. right. apply elem_of_seq. apply lookup_lt_Some in Hp. lia.
  - by eapply lookup_lt_Some.
  - congruence.
Qed.

Lemma task_values_unique f now ps (l1 l2 : list (option business)) :
  Forall2 (λ p r, task_value f now p = Return r) ps l1 →
  Forall2 (λ p r, task_value f now p = Return r) ps l2 →
  l1 = l2.
Proof.
  intros H1. revert l2. induction H1 as [|p r ps l1 Hr _ IH]; intros l2 H2.
  - by inversion H2.
  - inversion H2 as [|? r' ? l2' Hr' H2']; subst. f_equal; [congruence|by apply IH].
Qed.

(** C10: the records a page adds to the accumulator are the accepted values
    of its enrichments taken in the order of the page's place identifiers:
    the i-th value belongs to the i-th identifier, and it is the same for
    every order in which the replies arrive. *)
Theorem page_records_follow_place_order
    (api_key : string) (http : list string → string → option response)
    (f : filters) (sched : nat → list nat)
    (continue : option string → list business → nat → M (list business))
    (v : response) (acc : list business) (page : nat) (w w1 : world)
    (rs : list place) (ids : list string) (found : list (option business)) :
  results v = Some rs →
  place_ids rs = Return ids →
  gather api_key http f (sched page) ids w = (Return found, w1) →
  Forall2 (pending_for api_key w) ids (launch api_key http ids w).1 ∧
  Forall2 (λ p r, task_value f (clock w) p = Return r) (launch api_key http ids w).1 found ∧
  (∀ order found' w1',
     gather api_key http f order ids w = (Return found', w1') → found' = found) ∧
  page_body api_key http f sched continue v acc page w =
    match next_page_token v with
    | Some (String _ _ as t) => continue (Some t) (acc ++ omap id found) (S page) (sleep 2 w1)
    | _ => (Return (acc ++ omap id found), w1)
    end.
Proof.
  intros Hrs Hids Hg. split; [apply launch_pending_for|].
  pose proof (gather_values _ _ _ _ _ _ _ _ Hg) as Hv.
  split; [done|]. split.
  - intros order found' w1' Hg'. apply gather_values in Hg'.
    by eapply task_values_unique.
  - unfold page_body. by rewrite Hrs, Hids, Hg.
Qed.

(** ** The page loop *)

Section Loop.

Context (api_key : string) (http : list string → string → option response)
        (location : string) (radius : Z) (business_type : option string)
        (f : filters) (sched : nat → list nat).

Local Abbreviation loop := (find_businesses_loop api_key http location radius business_type f sched).
Local Abbreviation url_of := (build_url api_key location radius business_type).
Local Abbreviation later := (later_page_call api_key location radius business_type).
Local Abbreviation quiet := (sleeps_first api_key location radius business_type).

Lemma loop_S fuel tok acc page w :
  loop (S fuel) tok acc page w =
    match fetch http (url_of tok) (log (status_line page) w) with
    | (Return v, w') => page_body api_key http f sched (loop fuel) v acc page w'
    | (Raise e, w') => (Return acc, log (EPrint "Error fetching businesses" e) w')
    | (Fuel, w') => (Fuel, w')
    end.
Proof. reflexivity. Qed.

Lemma loop_page_missed fuel tok acc page w :
  cache_get (url_of tok) w = None →
  loop (S fuel) tok acc page w =
    let w' := log (EHttp (url_of tok)) (log (ECall (url_of tok)) (log (status_line page) w)) in
    match http (requests (trace w)) (url_of tok) with
    | Some v => page_body api_key http f sched (loop fuel) v acc page (cache_set (url_of tok) v w')
    | None => (Return acc, log (EPrint "Error fetching businesses" ClientError) w')
    end.
Proof.
  intros Hm. rewrite loop_S, fetch_miss by done.
  change (trace (log (status_line page) w)) with (trace w ++ [status_line page]).
  rewrite requests_app; simpl. rewrite app_nil_r.
  by destruct (http _ _).
Qed.

End Loop.

(** C3 (as the code has it): when the GET of a search page fails, the loop
    prints the error and stops, and [find_businesses] returns the records
    of the earlier pages as its ordinary result; no exception reaches the
    caller. *)
Theorem page_fetch_error_returns_partial
    (api_key : string) (http : list string → string → option response)
    (location : string) (radius : Z) (business_type : option string)
    (f : filters) (sched : nat → list nat)
    (fuel : nat) (tok : option string) (acc : list business) (page : nat) (w : world) :
  let url := build_url api_key location radius business_type tok in
  cache_get url w = None →
  http (requests (trace w)) url = None →
  find_businesses_loop api_key http location radius business_type f sched
      (S fuel) tok acc page w
  = (Return acc,
     log (EPrint "Error fetching businesses" ClientError)
       (log (EHttp url) (log (ECall url) (log (status_line page) w)))).
Proof.
  intros url Hmiss Hfail. rewrite loop_page_missed by done. simpl.
  fold url. by rewrite Hfail.
Qed.

(** C4 (as the code has it): a search page is fetched through the same
    cached [fetch] as the details.  A live entry for the exact search URL
    is used without any GET and the cache stays as it is; without one, a
    single GET is sent and, when it succeeds, its reply is stored under the
    search URL for [ttl] seconds. *)
Theorem page_fetch_uses_cache
    (api_key : string) (http : list string → string → option response)
    (location : string) (radius : Z) (business_type : option string)
    (f : filters) (sched : nat → list nat)
    (fuel : nat) (tok : option string) (acc : list business) (page : nat) (w : world) :
  let url := build_url api_key location radius business_type tok in
  let run := find_businesses_loop api_key http location radius business_type f sched in
  let called := log (ECall url) (log (status_line page) w) in
  run (S fuel) tok acc page w =
    match cache_get url w with
    | Some v => page_body api_key http f sched (run fuel) v acc page called
    | None =>
        match http (requests (trace w)) url with
        | Some v =>
            page_body api_key http f sched (run fuel) v acc page
              (World (clock w) (<[url := (v, clock w + ttl)]> (memo w))
                     (trace called ++ [EHttp url]))
        | None =>
            (Return acc, log (EPrint "Error fetching businesses" ClientError)
                           (log (EHttp url) called))
        end
    end.
Proof.
  intros url run called. unfold run.
  destruct (cache_get url w) as [v|] eqn:Hc.
  - by rewrite loop_S, (fetch_hit _ _ _ v).
  - by rewrite loop_page_missed.
Qed.

(** ** The delay between pages *)

Section Delay.

Context (api_key : string) (http : list string → string → option response)
        (location : string) (radius : Z) (business_type : option string)
        (f : filters) (sched : nat → list nat).

Local Abbreviation loop := (find_businesses_loop api_key http location radius business_type f sched).
Local Abbreviation url_of := (build_url api_key location radius business_type).
Local Abbreviation later := (later_page_call api_key location radius business_type).
Local Abbreviation quiet := (sleeps_first api_key location radius business_type).

Lemma quiet_nil : quiet [].
Proof. intros pre e post H. by destruct pre. Qed.

Lemma quiet_cons e evs : ¬ later e → quiet evs → quiet (e :: evs).
Proof.
  intros He Hq pre e' post Heq Hl. destruct pre as [|e0 pre]; simplify_eq/=; [done|].
  destruct (Hq pre e' post eq_refl Hl) as (pre' & msg & ->).
  by exists (e0 :: pre'), msg.
Qed.

Lemma quiet_app evs1 evs2 : Forall (λ e, ¬ later e) evs1 → quiet evs2 → quiet (evs1 ++ evs2).
Proof.
  induction 1 as [|e evs1 He _ IH]; intros Hq; [done|].
  simpl. apply quiet_cons; auto.
Qed.

Lemma quiet_turn msg e evs : quiet evs → quiet (ESleep 2 :: EStatus msg :: e :: evs).
Proof.
  intros Hq pre e' post Heq Hl.
  destruct pre as [|e0 [|e1 [|e2 pre]]]; simplify_eq/=.
  - by destruct Hl as (? & _ & ?).
  - by destruct Hl as (? & _ & ?).
  - by exists [], msg.
  - destruct (Hq pre e' post eq_refl Hl) as (pre' & msg' & ->).
    by exists (ESleep 2 :: EStatus msg :: e2 :: pre'), msg'.
Qed.

Lemma detail_event_not_later e : detail_event e → ¬ later e.
Proof.
  intros Hd (t & _ & ->). unfold detail_event in Hd.
  by rewrite build_url_not_details in Hd.
Qed.

Lemma fetch_trace url w r w' :
  fetch http url w = (r, w') →
  ∃ rest, trace w' = trace w ++ ECall url :: rest ∧ Forall (λ e, ¬ later e) rest.
Proof.
  unfold fetch, fetch_start.
  change (cache_get url (log (ECall url) w)) with (cache_get url w).
  destruct (cache_get url w) as [v|]; simpl.
  - intros [= <- <-]. by exists [].
  - destruct (http _ _); intros [= <- <-]; exists [EHttp url]; simpl;
      (split; [by rewrite <- app_assoc|]); repeat constructor; by intros (? & _ & ?).
Qed.

Lemma loop_trace fuel tok acc page w r w' :
  loop fuel tok acc page w = (r, w') →
  ∃ evs, trace w' = trace w ++ evs ∧
    ((fuel = 0%nat ∧ evs = []) ∨
     (∃ rest, evs = status_line page :: ECall (url_of tok) :: rest ∧ quiet rest)).
Proof.
  revert tok acc page w. induction fuel as [|fuel IH]; intros tok acc page w.
  { intros [= <- <-]. exists []. rewrite app_nil_r. split; [done|by left]. }
  rewrite loop_S.
  destruct (fetch http (url_of tok) (log (status_line page) w)) as [x w1] eqn:Hf.
  apply fetch_trace in Hf as (rest & Ht1 & Hrest). simpl in Ht1.
  rewrite <- app_assoc in Ht1. simpl in Ht1.
  assert (∀ more w2, trace w2 = trace w1 ++ more → quiet more →
            ∃ evs, trace w2 = trace w ++ evs ∧
              ((S fuel = 0%nat ∧ evs = []) ∨
               (∃ rest, evs = status_line page :: ECall (url_of tok) :: rest ∧ quiet rest)))
    as Hdone.
  { intros more w2 Ht2 Hq. eexists. split; [by rewrite Ht2, Ht1, <- app_assoc|].
    right. eexists. split; [done|]. by apply quiet_app. }
  destruct x as [v|e|].
  - unfold page_body. destruct (results v) as [rs|].
    2:{ intros [= <- <-]. apply (Hdone []); [by rewrite app_nil_r|apply quiet_nil]. }
    destruct (place_ids rs) as [ids|e|].
    2,3: intros [= <- <-]; (apply (Hdone []); [by rewrite app_nil_r|apply quiet_nil]).
    destruct (gather _ _ _ _ ids w1) as [y w2] eqn:Hg.
    apply gather_stage in Hg as [_ (devs & Ht2 & Hdevs) _].
    assert (Forall (λ e, ¬ later e) devs) as Hdevs'.
    { eapply Forall_impl; [exact Hdevs|]. apply detail_event_not_later. }
    destruct y as [found|e|].
    2,3: intros [= <- <-];
      (apply (Hdone devs); [done|]); rewrite <- (app_nil_r devs);
      apply quiet_app; [done|apply quiet_nil].
    destruct (next_page_token v) as [[|a t]|].
    1,3: intros [= <- <-];
      (apply (Hdone devs); [done|]); rewrite <- (app_nil_r devs);
      apply quiet_app; [done|apply quiet_nil].
    intros Hnext. apply IH in Hnext as (evs' & Ht3 & Hevs'). simpl in Ht3.
    apply (Hdone (devs ++ ESleep 2 :: evs')).
    { by rewrite Ht3, Ht2, <- !app_assoc. }
    apply quiet_app; [done|].
    destruct Hevs' as [[_ ->]|(rest' & -> & Hq)].
    + apply quiet_cons; [by intros (? & _ & ?)|apply quiet_nil].
    + by apply quiet_turn.
  - intros [= <- <-]. apply (Hdone [EPrint "Error fetching businesses" e]); [done|].
    apply quiet_cons; [by intros (? & _ & ?)|apply quiet_nil].
  - intros [= <- <-]. apply (Hdone []); [by rewrite app_nil_r|apply quiet_nil].
Qed.

End Delay.


(** ** Runs against a scripted remote end *)

Lemma place_ids_ok rs :
  Forall (λ p, is_Some (place_id p)) rs → ∃ ids, place_ids rs = Return ids.
Proof.
  induction 1 as [|p rs [i Hi] _ [ids IH]]; simpl; [by eexists|].
  rewrite Hi, IH. by eexists.
Qed.

Section Enrich.

Context (api_key : string) (http : list string → string → option response) (f : filters).
Context (http_enriches : ∀ h u v, is_details_url u = true → http h u = Some v → enriches f v).

Lemma start_enriches id w p w' :
  cache_enriches f w →
  get_business_details_start api_key http id w = (p, w') →
  pending_enriches f p ∧ memo w' = memo w.
Proof.
  intros Hc. unfold get_business_details_start, fetch_start, cache_get. simpl.
  destruct (memo w !! details_url api_key id) as [[v expiry]|] eqn:Hm.
  - destruct (clock w <? expiry); intros [= <- <-]; (split; [|done]); simpl.
    + eapply Hc; [|exact Hm]. apply details_url_is_details.
    + destruct (http _ _) eqn:Hh; [|done]. eapply http_enriches; [|exact Hh].
      apply details_url_is_details.
  - intros [= <- <-]. split; [|done]. simpl.
    destruct (http _ _) eqn:Hh; [|done]. eapply http_enriches; [|exact Hh].
    apply details_url_is_details.
Qed.

Lemma launch_enriches ids w :
  cache_enriches f w →
  Forall (pending_enriches f) (launch api_key http ids w).1.
Proof.
  revert w. induction ids as [|i ids IH]; intros w Hc; simpl; [constructor|].
  destruct (get_business_details_start _ _ i w) as [p w1] eqn:H1.
  apply start_enriches in H1 as [Hp Hm]; [|done].
  specialize (IH w1). destruct (launch _ _ ids w1) as [ps w2]. simpl in *.
  constructor; [done|]. apply IH. intros u v e Hu. rewrite Hm. by apply Hc.
Qed.

Lemma finish_enriches p w :
  pending_enriches f p → cache_enriches f w →
  ∃ r w', get_business_details_finish f p w = (Return r, w') ∧ cache_enriches f w'.
Proof.
  intros Hp Hc. unfold get_business_details_finish, fetch_finish.
  destruct p as [v|u [v|]]; simpl in *.
  - destruct (Hp (clock w)) as [r ->]. by eauto.
  - destruct (Hp (clock w)) as [r ->]. eexists _, _. split; [done|].
    intros u' v' e Hu'. simpl.
    destruct (decide (u = u')) as [<-|Hne].
    + rewrite lookup_insert_eq. by intros [= <- _].
    + rewrite lookup_insert_ne by done. by apply Hc.
  - eexists _, _. split; [done|]. done.
Qed.

Lemma complete_enriches order ts w :
  Forall (λ t, match t with Running p => pending_enriches f p | _ => True end) ts →
  cache_enriches f w →
  ∃ ts' w', complete f order ts w = (Return ts', w') ∧ cache_enriches f w'.
Proof.
  revert ts w. induction order as [|i order IH]; intros ts w Hts Hc; simpl.
  { by eauto. }
  destruct (ts !! i) as [[p|b]|] eqn:Hi; [|by apply IH..].
  pose proof (Forall_lookup_1 _ _ _ _ Hts Hi) as Hp. simpl in Hp.
  destruct (finish_enriches p w Hp Hc) as (r & w1 & -> & Hc1).
  apply IH; [|done]. by apply Forall_insert.
Qed.

Lemma gather_enriches sched ids w :
  cache_enriches f w →
  ∃ found w', gather api_key http f sched ids w = (Return found, w') ∧ cache_enriches f w'.
Proof.
  intros Hc. unfold gather.
  pose proof (launch_enriches ids w Hc) as Hps.
  pose proof (launch_frame api_key http ids w) as [_ Hm].
  destruct (launch _ _ ids w) as [ps w1]. simpl in *.
  destruct (complete_enriches (sched ++ seq 0 (length ps)) (Running <$> ps) w1)
    as (ts' & w2 & -> & Hc2).
  - apply Forall_fmap. eapply Forall_impl; [exact Hps|]. done.
  - intros u v e Hu. rewrite Hm. by apply Hc.
  - by eauto.
Qed.

End Enrich.

Lemma page_calls_app tr1 tr2 : page_calls (tr1 ++ tr2) = page_calls tr1 ++ page_calls tr2.
Proof. apply omap_app. Qed.

Lemma page_gets_app tr1 tr2 : page_gets (tr1 ++ tr2) = page_gets tr1 ++ page_gets tr2.
Proof. unfold page_gets. by rewrite requests_app, filter_app. Qed.

Lemma detail_events_silent devs :
  Forall detail_event devs →
  page_calls devs = [] ∧ page_gets devs = [] ∧ Forall (λ e, ¬ page_error e) devs.
Proof.
  induction 1 as [|e devs He _ (IH1 & IH2 & IH3)]; [done|].
  change (e :: devs) with ([e] ++ devs).
  rewrite page_calls_app, page_gets_app, IH1, IH2, !app_nil_r.
  destruct e as [msg|u|u|s|msg x]; simpl in He; try done.
  - unfold page_calls, page_gets; simpl. rewrite He. split; [done|]. split; [done|].
    constructor; [|done]. by intros [? [=]].
  - unfold page_calls, page_gets; simpl. rewrite filter_cons, decide_False by congruence.
    split; [done|]. split; [done|]. constructor; [|done]. by intros [? [=]].
  - split; [done|]. split; [done|]. constructor; [|done]. subst msg. by intros [? [=]].
Qed.

Lemma turn_events page url :
  is_details_url url = false →
  page_calls [status_line page; ECall url; EHttp url] = [url] ∧
  page_gets [status_line page; ECall url; EHttp url] = [url] ∧
  Forall (λ e, ¬ page_error e) [status_line page; ECall url; EHttp url].
Proof.
  intros Hu. unfold page_calls, page_gets; simpl. rewrite Hu.
  rewrite filter_cons, decide_True by done. split; [done|]. split; [done|].
  repeat constructor; by intros [? [=]].
Qed.

Section Script.

Context (api_key : string) (location : string) (radius : Z) (business_type : option string)
        (f : filters) (sched : nat → list nat)
        (script : list (option response)) (details : string → option response).
Context (details_enrich : ∀ u v, details u = Some v → enriches f v).

Local Abbreviation http := (scripted script details).
Local Abbreviation loop := (find_businesses_loop api_key http location radius business_type f sched).
Local Abbreviation url_of := (build_url api_key location radius business_type).

Lemma scripted_enriches h u v :
  is_details_url u = true → http h u = Some v → enriches f v.
Proof. unfold scripted. intros ->. apply details_enrich. Qed.

(** One turn of the loop whose page is not in the cache and is answered by
    the next element [v] of the script. *)
Lemma turn_script fuel tok acc page w v :
  memo w !! url_of tok = None →
  cache_enriches f w →
  places_ok v →
  script !! length (page_gets (trace w)) = Some (Some v) →
  ∃ found w1 devs,
    trace w1 = trace w ++ [status_line page; ECall (url_of tok); EHttp (url_of tok)] ++ devs ∧
    Forall detail_event devs ∧
    (∀ u, is_details_url u = false → u ≠ url_of tok → memo w1 !! u = memo w !! u) ∧
    cache_enriches f w1 ∧
    loop (S fuel) tok acc page w =
      match results v with
      | None => (Return acc, w1)
      | Some _ =>
          match next_page_token v with
          | Some (String _ _ as t) =>
              loop fuel (Some t) (acc ++ omap id found) (S page) (sleep 2 w1)
          | _ => (Return (acc ++ omap id found), w1)
          end
      end.
Proof.
  intros Hm Hc Hpl Hs.
  pose proof (build_url_not_details api_key location radius business_type tok) as Hnd.
  rewrite loop_page_missed by (unfold cache_get; by rewrite Hm).
  cbv zeta. unfold scripted at 1. rewrite Hnd.
  fold (page_gets (trace w)). rewrite Hs. simpl mjoin. cbv iota.
  set (w0 := cache_set (url_of tok) v _).
  assert (trace w0 = trace w ++ [status_line page; ECall (url_of tok); EHttp (url_of tok)])
    as Ht0 by (unfold w0; simpl; by rewrite <- !app_assoc).
  assert (∀ u, u ≠ url_of tok → memo w0 !! u = memo w !! u) as Hm0.
  { intros u Hu. unfold w0; simpl. by rewrite lookup_insert_ne. }
  assert (cache_enriches f w0) as Hc0.
  { intros u x e Hu. unfold w0; simpl.
    destruct (decide (url_of tok = u)) as [<-|Hne]; [congruence|].
    rewrite lookup_insert_ne by done. by apply Hc. }
  unfold page_body. destruct (results v) as [rs|] eqn:Hrs.
  2:{ exists [], w0, []. rewrite app_nil_r. repeat split; auto. }
  destruct (place_ids_ok rs (Hpl rs Hrs)) as [ids ->].
  destruct (gather_enriches api_key http f scripted_enriches (sched page) ids w0 Hc0)
    as (found & w1 & Hg & Hc1).
  rewrite Hg. apply gather_stage in Hg as [_ (devs & Ht1 & Hdevs) Hm1].
  exists found, w1, devs. rewrite Ht1, Ht0, <- app_assoc.
  repeat split; auto.
  intros u Hu Hne. rewrite Hm1 by done. by apply Hm0.
Qed.

Lemma loop_script rem : ∀ last tok acc page w fuel,
  Forall has_next rem →
  next_page_token last = None →
  Forall places_ok (rem ++ [last]) →
  cache_enriches f w →
  NoDup (url_of tok :: ((url_of ∘ next_page_token) <$> rem)) →
  (∀ u, u ∈ url_of tok :: ((url_of ∘ next_page_token) <$> rem) → memo w !! u = None) →
  drop (length (page_gets (trace w))) script = Some <$> (rem ++ [last]) →
  (length rem < fuel)%nat →
  ∃ recs w' evs,
    loop fuel tok acc page w = (Return recs, w') ∧
    trace w' = trace w ++ evs ∧
    page_calls evs = url_of tok :: ((url_of ∘ next_page_token) <$> rem) ∧
    page_gets evs = url_of tok :: ((url_of ∘ next_page_token) <$> rem) ∧
    Forall (λ e, ¬ page_error e) evs.
Proof.
  induction rem as [|r rem IH]; intros last tok acc page w fuel Hnext Hlast Hpl Hc Hnd Hfree Hs Hfuel;
    (destruct fuel as [|fuel]; [lia|]);
    pose proof (build_url_not_details api_key location radius business_type tok) as Hu;
    destruct (turn_events page (url_of tok) Hu) as (Hpc & Hpg & Hpe).
  - simpl in Hpl, Hnd, Hfree, Hs. apply Forall_cons in Hpl as [Hpl _].
    destruct (turn_script fuel tok acc page w last)
      as (found & w1 & devs & Ht & Hd & _ & _ & Hloop);
      [apply Hfree; apply list_elem_of_here|done|done| |].
    { rewrite <- (Nat.add_0_r (length _)), <- lookup_drop, Hs. done. }
    destruct (detail_events_silent devs Hd) as (Hd1 & Hd2 & Hd3).
    rewrite Hlast in Hloop.
    assert (page_calls ([status_line page; ECall (url_of tok); EHttp (url_of tok)] ++ devs)
            = [url_of tok]) as Hcalls by (by rewrite page_calls_app, Hpc, Hd1).
    assert (page_gets ([status_line page; ECall (url_of tok); EHttp (url_of tok)] ++ devs)
            = [url_of tok]) as Hgets by (by rewrite page_gets_app, Hpg, Hd2).
    destruct (results last); eexists _, w1, _;
      (split; [exact Hloop|]); (split; [exact Ht|]); (split; [done|]); (split; [done|]);
      by apply Forall_app.
  - apply Forall_cons in Hnext as [[[rs Hrs] (t & Htok & Htne)] Hnext].
    simpl in Hpl. apply Forall_cons in Hpl as [Hplr Hpl].
    simpl in Hnd, Hfree, Hs. rewrite Htok in Hnd, Hfree.
    apply NoDup_cons in Hnd as [Hfresh Hnd].
    destruct (turn_script fuel tok acc page w r)
      as (found & w1 & devs & Ht & Hd & Hm1 & Hc1 & Hloop);
      [apply Hfree; apply list_elem_of_here|done|done| |].
    { rewrite <- (Nat.add_0_r (length _)), <- lookup_drop, Hs. done. }
    destruct (detail_events_silent devs Hd) as (Hd1 & Hd2 & Hd3).
    rewrite Hrs, Htok in Hloop. destruct t as [|a t]; [done|].
    destruct (IH last (Some (String a t)) (acc ++ omap id found) (S page) (sleep 2 w1) fuel)
      as (recs & w' & evs & Hrun & Ht' & Hcalls & Hgets & Herr); try done.
    + intros u Hin. simpl. rewrite Hm1; [apply Hfree; by apply list_elem_of_further| |].
      * apply elem_of_cons in Hin as [->|Hin]; [apply build_url_not_details|].
        apply list_elem_of_fmap in Hin as (x & -> & _). apply build_url_not_details.
      * intros ->. done.
    + change (trace (sleep 2 w1)) with (trace w1 ++ [ESleep 2]).
      rewrite Ht, !page_gets_app, Hpg, Hd2.
      change (page_gets [ESleep 2]) with (@nil string).
      rewrite !app_nil_r, length_app. simpl.
      rewrite (drop_S script (Some r) (length (page_gets (trace w)))) in Hs.
      * replace (length (page_gets (trace w)) + 1)%nat with (S (length (page_gets (trace w))))
          by lia. by injection Hs.
      * rewrite <- (Nat.add_0_r (length _)), <- lookup_drop, Hs. done.
    + simpl in Hfuel. lia.
    + exists recs, w', ([status_line page; ECall (url_of tok); EHttp (url_of tok)]
                        ++ devs ++ ESleep 2 :: evs).
      split; [by rewrite Hloop|]. split.
      { rewrite Ht'. simpl. rewrite Ht, <- !app_assoc. done. }
      rewrite !page_calls_app, !page_gets_app, Hpc, Hpg, Hd1, Hd2.
      change (page_calls (ESleep 2 :: evs)) with (page_calls evs).
      change (page_gets (ESleep 2 :: evs)) with (page_gets evs).
      rewrite Hcalls, Hgets, fmap_cons.
      change ((url_of ∘ next_page_token) r) with (url_of (next_page_token r)).
      rewrite Htok.
      split; [done|]. split; [done|].
      apply Forall_app. split; [done|]. apply Forall_app. split; [done|].
      constructor; [by intros [? [=]]|done].
Qed.

End Script.

Lemma page_urls_nodup api_key location radius business_type (pages : list response) :
  Forall has_next pages →
  NoDup (next_page_token <$> pages) →
  NoDup (build_url api_key location radius business_type None
           :: ((build_url api_key location radius business_type ∘ next_page_token) <$> pages)).
Proof.
  intros Hnext Hnd. apply NoDup_cons. split.
  - intros Hin. apply list_elem_of_fmap in Hin as (p & Heq & Hp).
    destruct (proj1 (Forall_forall _ _) Hnext p Hp) as [_ (t & Ht & Hne)].
    simpl in Heq. rewrite Ht in Heq. by apply build_url_first_ne in Heq.
  - rewrite list_fmap_compose. apply NoDup_fmap_2_strong; [|done].
    intros x y Hx Hy Heq.
    apply list_elem_of_fmap in Hx as (p & -> & Hp).
    apply list_elem_of_fmap in Hy as (q & -> & Hq).
    destruct (proj1 (Forall_forall _ _) Hnext p Hp) as [_ (t & Ht & Hne)].
    destruct (proj1 (Forall_forall _ _) Hnext q Hq) as [_ (t' & Ht' & Hne')].
    rewrite Ht, Ht' in *. f_equal. by eapply build_url_token_inj.
Qed.

(** C8 (as the code has it): against a remote end that answers the page
    requests with the scripted replies [pages ++ [last]], where every page
    but the last has a result list and a non-empty token that no other page
    carries, the last one has no token and every listed place has its
    identifier, a run from an empty cache returns normally after exactly
    one fetch and one GET per scripted page, and prints no page error,
    provided the detail replies are such that no enrichment meets a missing
    key.  A successful page reply without a result list ends the loop with
    the records gathered so far. *)
Theorem pagination_terminates
    (api_key : string) (location : string) (radius : Z) (business_type : option string)
    (f : filters) (sched : nat → list nat)
    (pages : list response) (last : response) (details : string → option response)
    (t0 : Z) (fuel : nat) :
  Forall has_next pages →
  next_page_token last = None →
  NoDup (next_page_token <$> pages) →
  Forall places_ok (pages ++ [last]) →
  (∀ u v, details u = Some v → enriches f v) →
  (length pages < fuel)%nat →
  (∃ recs w',
     find_businesses api_key (scripted (Some <$> (pages ++ [last])) details)
       location radius business_type f sched fuel (fresh t0) = (Return recs, w') ∧
     length (page_calls (trace w')) = S (length pages) ∧
     length (page_gets (trace w')) = S (length pages) ∧
     Forall (λ e, ¬ page_error e) (trace w')) ∧
  (∀ http n tok acc page w v w1,
     fetch http (build_url api_key location radius business_type tok)
       (log (status_line page) w) = (Return v, w1) →
     results v = None →
     find_businesses_loop api_key http location radius business_type f sched
       (S n) tok acc page w = (Return acc, w1)).
Proof.
  intros Hnext Hlast Hnd Hpl Hdet Hfuel. split.
  - destruct (loop_script api_key location radius business_type f sched
                (Some <$> (pages ++ [last])) details Hdet pages last None [] 1%nat (fresh t0) fuel)
      as (recs & w' & evs & Hrun & Ht & Hcalls & Hgets & Herr); try done.
    + by apply page_urls_nodup.
    + exists recs, w'. split; [exact Hrun|]. simpl in Ht. subst evs.
      rewrite Hcalls, Hgets. simpl. by rewrite length_fmap.
  - intros http n tok acc page w v w1 Hf Hres.
    rewrite loop_S, Hf. unfold page_body. by rewrite Hres.
Qed.

(** ** Concrete runs *)

Section Examples.

Import Fixture.

(** C1, counterexample: a detail result without ['business_status'] is
    rejected by line 106 when [operational] is on, and accepted when it is
    off. *)
Lemma absent_status_is_rejected :
  business_status acme = None ∧
  rejects_operational only_operational acme = Return true ∧
  apply_filters only_operational 0 acme = Return None ∧
  apply_filters no_filters 0 acme = Return (Some acme_record) ∧
  (get_business_details key (scripted [] all_acme) "p1" only_operational (fresh 0)).1
    = Return None.
Proof. by_computation. Qed.

Lemma operational_requires_status_witness :
  operational only_operational = true ∧
  (rejects_operational only_operational acme = Return false
     ↔ business_status acme = Some "OPERATIONAL") ∧
  (business_status acme ≠ Some "OPERATIONAL" →
     apply_filters only_operational 0 acme = Return None).
Proof.
  split; [reflexivity|].
  apply (operational_requires_status only_operational 0 acme). reflexivity.
Defined.

(** C5, counterexample: a detail result whose ['website'] is the empty
    string is rejected by line 104 when [without_website] is on. *)
Lemma blank_website_is_rejected :
  website acme_blank_site = Some "" ∧
  rejects_without_website only_without_website acme_blank_site = Return true ∧
  apply_filters only_without_website 0 acme_blank_site = Return None ∧
  (get_business_details key (scripted [] (λ _, Some (detail_reply acme_blank_site)))
     "p1" only_without_website (fresh 0)).1 = Return None.
Proof. by_computation. Qed.

Lemma without_website_tests_presence_witness :
  without_website only_without_website = true ∧
  (rejects_without_website only_without_website acme_blank_site = Return true
     ↔ is_Some (website acme_blank_site)) ∧
  (is_Some (website acme_blank_site) →
     apply_filters only_without_website 0 acme_blank_site = Return None).
Proof.
  split; [reflexivity|].
  apply (without_website_tests_presence only_without_website 0 acme_blank_site). reflexivity.
Defined.

(** C2: a result that passes the active filters and has no ['name'] makes
    line 116 raise.  In a run over one page with three places, the second
    of which the detail endpoint does not know (its reply has no
    ['result']), and no filter on, the exception passes through [gather]
    and [find_businesses], and the records of the other two places are
    lost; without that place the same run returns both records. *)
Theorem missing_name_aborts_run :
  (∀ f now d, accepts f now d = true → name d = None →
     apply_filters f now d = Raise (KeyError "name")) ∧
  (get_business_details key (scripted [] p2_unknown) "p2" no_filters (fresh 0)).1
    = Raise (KeyError "name") ∧
  (run (scripted [Some (search_reply ["p1"; "p2"; "p3"] None)] p2_unknown) no_filters 5).1
    = Raise (KeyError "name") ∧
  (run (scripted [Some (search_reply ["p1"; "p3"] None)] p2_unknown) no_filters 5).1
    = Return [acme_record; acme_record].
Proof.
  split; [|by_computation].
  intros f now d Hacc Hname. rewrite apply_filters_chain, passes_run by done.
  unfold make_business. by rewrite Hname.
Qed.

(** C3, counterexample: page 1 yields one record, the GET of page 2 fails.
    The run returns that record as an ordinary result; the error is only
    printed. *)
Lemma failed_page_returns_normally :
  (run (scripted [Some (search_reply ["p1"] (Some "A")); None] all_acme) no_filters 5).1
    = Return [acme_record] ∧
  last (trace (run (scripted [Some (search_reply ["p1"] (Some "A")); None] all_acme)
                 no_filters 5).2)
    = Some (EPrint "Error fetching businesses" ClientError).
Proof. by_computation. Qed.

Lemma page_fetch_error_returns_partial_witness :
  cache_get (search_url (Some "A")) (fresh 0) = None ∧
  scripted [] all_acme (requests (trace (fresh 0))) (search_url (Some "A")) = None ∧
  find_businesses_loop key (scripted [] all_acme) location radius business_type
      no_filters in_order 1 (Some "A") [acme_record] 2 (fresh 0)
  = (Return [acme_record],
     log (EPrint "Error fetching businesses" ClientError)
       (log (EHttp (search_url (Some "A")))
          (log (ECall (search_url (Some "A"))) (log (status_line 2) (fresh 0))))).
Proof.
  split; [reflexivity|]. split; [reflexivity|].
  apply (page_fetch_error_returns_partial key (scripted [] all_acme) location radius
           business_type no_filters in_order 0 (Some "A") [acme_record] 2 (fresh 0));
    reflexivity.
Defined.

(** C4, counterexample: the replies to pages 1 and 2 both carry the token
    "A".  The third page request has the URL of the second one and is
    answered from the cache: after three turns there are three page
    fetches and two GETs, and the reply to page 2 sits in the cache under
    its search URL.  The whole run makes 1802 page fetches for 3 GETs. *)
Lemma repeated_page_is_served_from_cache :
  page_calls (trace (run (scripted [Some (search_reply [] (Some "A"));
                                     Some (search_reply [] (Some "A"));
                                     Some (search_reply ["p1"] None)] all_acme)
                       no_filters 3).2)
    = [search_url None; search_url (Some "A"); search_url (Some "A")] ∧
  page_gets (trace (run (scripted [Some (search_reply [] (Some "A"));
                                    Some (search_reply [] (Some "A"));
                                    Some (search_reply ["p1"] None)] all_acme)
                      no_filters 3).2)
    = [search_url None; search_url (Some "A")] ∧
  memo (run (scripted [Some (search_reply [] (Some "A"));
                       Some (search_reply [] (Some "A"));
                       Some (search_reply ["p1"] None)] all_acme)
          no_filters 3).2 !! search_url (Some "A")
    = Some (search_reply [] (Some "A"), 3602) ∧
  (run (scripted [Some (search_reply [] (Some "A"));
                  Some (search_reply [] (Some "A"));
                  Some (search_reply ["p1"] None)] all_acme)
     no_filters 2000).1 = Return [acme_record] ∧
  length (page_calls (trace (run (scripted [Some (search_reply [] (Some "A"));
                                            Some (search_reply [] (Some "A"));
                                            Some (search_reply ["p1"] None)] all_acme)
                              no_filters 2000).2)) = 1802%nat ∧
  length (page_gets (trace (run (scripted [Some (search_reply [] (Some "A"));
                                           Some (search_reply [] (Some "A"));
                                           Some (search_reply ["p1"] None)] all_acme)
                             no_filters 2000).2)) = 3%nat.
Proof. by_computation. Qed.

(** C6, counterexample: the decision is not a function of the raw result
    and the flags alone.  With [has_recent_reviews] on, a result whose one
    review was written at time 100 is accepted when the clock of line 110
    reads 100 and rejected when it reads 2592100, thirty days later. *)
Lemma decision_depends_on_clock :
  accepts only_recent_reviews 100 acme_reviewed = true ∧
  accepts only_recent_reviews 2592100 acme_reviewed = false ∧
  apply_filters only_recent_reviews 100 acme_reviewed = Return (Some acme_record) ∧
  apply_filters only_recent_reviews 2592100 acme_reviewed = Return None.
Proof. by_computation. Qed.

(** C8, counterexample: scripts of successful replies that end in a reply
    without token, on which the run does not make one page fetch per reply
    and return.  With a token that comes twice, three replies take 1802
    page fetches, and fuel 4 is not enough; a page without a result list
    ends a script of two replies after one fetch; a detail reply without
    ['name'] or a result without ['place_id'] ends the run with a
    [KeyError]; and from a cache that holds the first page, a run whose
    remote end has one reply left makes two page fetches. *)
Lemma script_length_is_not_fetch_count :
  (run (scripted repeated_token all_acme) no_filters 4).1 = Fuel ∧
  (run (scripted repeated_token all_acme) no_filters 2000).1 = Return [acme_record] ∧
  length (page_calls (trace (run (scripted repeated_token all_acme) no_filters 2000).2))
    = 1802%nat ∧
  (run (scripted no_result_list all_acme) no_filters 5).1 = Return [] ∧
  page_calls (trace (run (scripted no_result_list all_acme) no_filters 5).2)
    = [search_url None] ∧
  (run (scripted [Some (search_reply ["p2"] None)] p2_unknown) no_filters 5).1
    = Raise (KeyError "name") ∧
  (run (scripted place_without_id all_acme) no_filters 5).1 = Raise (KeyError "place_id") ∧
  (find_businesses key (scripted two_pages all_acme) location radius business_type
     no_filters in_order 5
     (fetch (scripted two_pages all_acme) (search_url None) (fresh 0)).2).1
    = Return [acme_record] ∧
  page_calls (trace (find_businesses key (scripted two_pages all_acme) location radius
                       business_type no_filters in_order 5
                       (fetch (scripted two_pages all_acme) (search_url None) (fresh 0)).2).2)
    = [search_url None; search_url None; search_url (Some "A")] ∧
  page_gets (trace (find_businesses key (scripted two_pages all_acme) location radius
                      business_type no_filters in_order 5
                      (fetch (scripted two_pages all_acme) (search_url None) (fresh 0)).2).2)
    = [search_url None; search_url (Some "A")].
Proof. by_computation. Qed.

Lemma cache_idempotence_within_ttl_witness :
  ttl = 3600 ∧
  (gets (details_url key "p1")
        (trace (fetch_each (scripted [] all_acme) (details_url key "p1") [10%Z; 20%Z]
                  (fetch (scripted [] all_acme) (details_url key "p1") (fresh 0%Z)).2).2)
   ≤ S (gets (details_url key "p1") (trace (fresh 0%Z))))%nat ∧
  (fetch_each (scripted [] all_acme) (details_url key "p1") [10; 20]
     (fetch (scripted [] all_acme) (details_url key "p1") (fresh 0)).2).1
    = [Return (detail_reply acme); Return (detail_reply acme)].
Proof.
  destruct (cache_idempotence_within_ttl (scripted [] all_acme) (details_url key "p1")
              (fresh 0)
              (fetch (scripted [] all_acme) (details_url key "p1") (fresh 0)).2
              (fetch_each (scripted [] all_acme) (details_url key "p1") [10; 20]
                 (fetch (scripted [] all_acme) (details_url key "p1") (fresh 0)).2).2
              (Return (detail_reply acme)) [10; 20]
              (fetch_each (scripted [] all_acme) (details_url key "p1") [10; 20]
                 (fetch (scripted [] all_acme) (details_url key "p1") (fresh 0)).2).1)
    as (Httl & Hmost & Hmiss).
  - intros h. by eexists.
  - repeat constructor; lia.
  - vm_compute. reflexivity.
  - by_run.
  - apply surjective_pairing.
  - split; [exact Httl|]. split; [exact Hmost|].
    destruct Hmiss as (v & Hv & _ & Hrs & _); [vm_compute; reflexivity|].
    injection Hv as <-. exact Hrs.
Defined.

Lemma pagination_terminates_witness :
  ∃ recs w',
    find_businesses key
      (scripted (Some <$> ([search_reply ["p1"] (Some "A")] ++ [search_reply ["p2"] None]))
         all_acme)
      location radius business_type no_filters in_order 2 (fresh 0) = (Return recs, w') ∧
    length (page_calls (trace w')) = 2%nat ∧
    length (page_gets (trace w')) = 2%nat ∧
    Forall (λ e, ¬ page_error e) (trace w').
Proof.
  apply (pagination_terminates key location radius business_type no_filters in_order
           [search_reply ["p1"] (Some "A")] (search_reply ["p2"] None) all_acme 0 2).
  - constructor; [|constructor]. split; [by eexists|]. by exists "A".
  - reflexivity.
  - apply NoDup_singleton.
  - repeat constructor; intros rs [= <-]; repeat constructor; by eexists.
  - intros u v [= <-] now. by eexists.
  - simpl. lia.
Defined.

Lemma page_records_follow_place_order_witness :
  results (search_reply ["p1"; "p2"] None) = Some [Place (Some "p1"); Place (Some "p2")] ∧
  place_ids [Place (Some "p1"); Place (Some "p2")] = Return ["p1"; "p2"] ∧
  page_body key (scripted [] all_acme) no_filters in_order (λ _ acc _ w, (Return acc, w))
    (search_reply ["p1"; "p2"] None) [] 1 (fresh 0)
  = (Return ([] ++ omap id [Some acme_record; Some acme_record]),
     (gather key (scripted [] all_acme) no_filters (in_order 1) ["p1"; "p2"] (fresh 0)).2).
Proof.
  split; [reflexivity|]. split; [reflexivity|].
  apply (page_records_follow_place_order key (scripted [] all_acme) no_filters in_order
           (λ _ acc _ w, (Return acc, w)) (search_reply ["p1"; "p2"] None) [] 1%nat (fresh 0)
           (gather key (scripted [] all_acme) no_filters (in_order 1) ["p1"; "p2"] (fresh 0)).2
           [Place (Some "p1"); Place (Some "p2")] ["p1"; "p2"]
           [Some acme_record; Some acme_record]).
  - reflexivity.
  - reflexivity.
  - by_run.
Defined.

End Examples.

(** * Further properties of the code *)

(** ** What [build_url] and the detail URL look like *)

Lemma append_assoc (s1 s2 s3 : string) : (s1 +:+ s2) +:+ s3 = s1 +:+ s2 +:+ s3.
Proof.
  induction s1 as [|a s1 IH]; [done|].
  change (String a ((s1 +:+ s2) +:+ s3) = String a (s1 +:+ s2 +:+ s3)). by rewrite IH.
Qed.

Lemma append_length (s t : string) :
  String.length (s +:+ t) = (String.length s + String.length t)%nat.
Proof.
  induction s as [|a s IH]; [done|].
  change (S (String.length (s +:+ t)) = S (String.length s + String.length t)). by rewrite IH.
Qed.

Lemma append_inj_r (s1 s2 t : string) : s1 +:+ t = s2 +:+ t → s1 = s2.
Proof.
  revert s2. induction s1 as [|a s1 IH]; intros [|b s2] H; [done| | |].
  - apply (f_equal String.length) in H.
    change (String.length t = S (String.length (s2 +:+ t))) in H.
    rewrite append_length in H. lia.
  - apply (f_equal String.length) in H.
    change (S (String.length (s1 +:+ t)) = String.length t) in H.
    rewrite append_length in H. lia.
  - change (String a (s1 +:+ t) = String b (s2 +:+ t)) in H.
    injection H as -> H. f_equal. by apply IH.
Qed.

(** X1: the URL of a page with a non-empty token is the URL of the first
    page followed by [&pagetoken=] and the token; it differs from the URL
    of the first page, and no other token gives the same URL. *)
Theorem page_url_carries_token
    (api_key location : string) (radius : Z) (business_type : option string)
    (a : Ascii.ascii) (t : string) :
  build_url api_key location radius business_type (Some (String a t))
  = build_url api_key location radius business_type None +:+ "&pagetoken=" +:+ String a t ∧
  build_url api_key location radius business_type (Some (String a t))
  ≠ build_url api_key location radius business_type None ∧
  (∀ t', build_url api_key location radius business_type (Some t')
         = build_url api_key location radius business_type (Some (String a t)) →
         t' = String a t).
Proof.
  split; [done|]. split.
  - intros H. symmetry in H. by apply build_url_first_ne in H.
  - intros t' H. destruct t' as [|b t'].
    + by apply build_url_first_ne in H.
    + by apply build_url_token_inj in H.
Qed.

(** X2: a search URL is never a detail URL, whatever the arguments: the
    two endpoints cannot meet on one cache key. *)
Theorem search_and_detail_urls_differ
    (api_key api_key' location : string) (radius : Z)
    (business_type next_page_token : option string) (place_id : string) :
  build_url api_key location radius business_type next_page_token
  ≠ details_url api_key' place_id.
Proof.
  intros H. apply (f_equal is_details_url) in H.
  by rewrite build_url_not_details, details_url_is_details in H.
Qed.

(** X3: two places have the same detail URL only if they have the same
    identifier. *)
Theorem details_url_inj (api_key id1 id2 : string) :
  details_url api_key id1 = details_url api_key id2 ↔ id1 = id2.
Proof.
  split; [|by intros ->]. unfold details_url. intros H.
  apply (inj (String.app _)) in H. by apply append_inj_r in H.
Qed.

(** X4: [build_url] pastes its arguments into the URL as they are.  A
    business type that contains [&pagetoken=...] gives the URL of a later
    page of the shorter type. *)
Theorem build_url_does_not_escape
    (api_key location : string) (radius : Z)
    (a b : Ascii.ascii) (ty tok : string) :
  build_url api_key location radius
    (Some (String a (ty +:+ "&pagetoken=" +:+ String b tok))) None
  = build_url api_key location radius (Some (String a ty)) (Some (String b tok)).
Proof.
  unfold build_url.
  change (String a (ty +:+ "&pagetoken=" +:+ String b tok))
    with (String a ty +:+ "&pagetoken=" +:+ String b tok).
  by rewrite !append_assoc.
Qed.

(** ** More on the filter chain *)

(** X5: when [has_recent_reviews] is on, [has_any_reviews] adds nothing:
    the function returns the same with it on or off. *)
Theorem any_reviews_flag_is_redundant
    (w o p : bool) (now : Z) (d : details) :
  apply_filters (Filters w o p true true) now d
  = apply_filters (Filters w o p true false) now d.
Proof.
  unfold apply_filters, rejects_without_website, rejects_operational, rejects_has_phone,
    rejects_has_recent_reviews, rejects_has_any_reviews.
  destruct w, o, p, (website d), (status_not_operational d),
    (formatted_phone_number d), (has_reviews d); simpl; try done;
    by destruct (any_recent now _) as [[]| |].
Qed.

(** X6: waiting never helps.  A result that the filters accept at some
    time is accepted at every earlier time as well. *)
Theorem acceptance_only_expires (f : filters) (now now' : Z) (d : details) :
  now ≤ now' → accepts f now' d = true → accepts f now d = true.
Proof.
  intros Hle. unfold accepts. rewrite !passes_Forall. unfold source_checks.
  rewrite !Forall_cons, !has_recent_reviews_line.
  intros (H1 & H2 & H3 & H4 & H5). split; [done|]. split; [done|]. split; [done|].
  split; [|done].
  intros Hf. destruct (H4 Hf) as (rs & i & r & t & Hrs & Hi & Ht & Hlt & Hall).
  exists rs, i, r, t. split; [done|]. split; [done|]. split; [done|]. split; [lia|done].
Qed.

(** ** Search results without a place identifier *)

Lemma place_ids_missing rs :
  Exists (λ p, place_id p = None) rs → place_ids rs = Raise (KeyError "place_id").
Proof.
  induction rs as [|r rs IH]; intros H; [by inversion H|].
  simpl. destruct (place_id r) as [i|] eqn:Hi; [|done].
  inversion H as [? ? Hr|? ? Hrs]; subst; [congruence|].
  by rewrite IH.
Qed.

(** X7: a page one of whose results has no ['place_id'] raises [KeyError]
    while the task list is built: no detail is fetched, nothing is printed
    and the records of this page and of the earlier ones are lost. *)
Theorem missing_place_id_aborts_page
    (api_key : string) (http : list string → string → option response)
    (f : filters) (sched : nat → list nat)
    (continue : option string → list business → nat → M (list business))
    (v : response) (rs : list place) (acc : list business) (page : nat) (w : world) :
  results v = Some rs →
  Exists (λ p, place_id p = None) rs →
  page_body api_key http f sched continue v acc page w = (Raise (KeyError "place_id"), w).
Proof.
  intros Hrs Hex. unfold page_body. by rewrite Hrs, place_ids_missing.
Qed.

(** ** What a run returns and raises *)

Lemma apply_filters_some f now d b :
  apply_filters f now d = Return (Some b) →
  accepts f now d = true ∧ make_business d = Return (Some b).
Proof.
  intros H. rewrite apply_filters_chain in H.
  destruct (accepts f now d) eqn:Hacc.
  - by rewrite passes_run in H.
  - by apply (fails_run (make_business d)) with (a := b) in Hacc.
Qed.

Lemma any_recent_raises now rs :
  any_recent now rs ≠ Fuel ∧ ∀ e, any_recent now rs = Raise e → e = KeyError "time".
Proof.
  induction rs as [|r rs [IH1 IH2]]; simpl; [done|].
  destruct (time r); [|split; [done|by intros e [= <-]]].
  by destruct (_ <? _).
Qed.

Lemma guard_raises {A} (c : outcome bool) (rest : outcome (option A)) :
  (c ≠ Fuel ∧ ∀ e, c = Raise e → e = KeyError "name" ∨ e = KeyError "time") →
  (rest ≠ Fuel ∧ ∀ e, rest = Raise e → e = KeyError "name" ∨ e = KeyError "time") →
  guard c rest ≠ Fuel ∧
  ∀ e, guard c rest = Raise e → e = KeyError "name" ∨ e = KeyError "time".
Proof.
  intros [Hc1 Hc2] [Hr1 Hr2]. destruct c as [[]|e|]; simpl; try done.
  split; [done|]. intros e' [= <-]. by apply Hc2.
Qed.

Lemma apply_filters_raises f now d :
  apply_filters f now d ≠ Fuel ∧
  ∀ e, apply_filters f now d = Raise e → e = KeyError "name" ∨ e = KeyError "time".
Proof.
  unfold apply_filters.
  repeat apply guard_raises; try (split; [done|by intros ? [=]]).
  - pose proof (any_recent_raises now (default [] (reviews d))) as [Hfuel Hraise].
    unfold rejects_has_recent_reviews.
    destruct (has_recent_reviews f), (has_reviews d); try (split; [done|by intros ? [=]]).
    destruct (any_recent now _) as [[]|e|]; try done;
      try (split; [done|by intros ? [=]]).
    split; [done|]. intros ? [= <-]. right. by apply Hraise.
  - unfold make_business. destruct (name d); (split; [done|]); intros ? [=]; subst; auto.
Qed.

Lemma finish_raises f p w r w' :
  get_business_details_finish f p w = (r, w') →
  r ≠ Fuel ∧ ∀ e, r = Raise e → e = KeyError "name" ∨ e = KeyError "time".
Proof.
  unfold get_business_details_finish, fetch_finish.
  destruct p as [v|u [v|]]; intros [= <- <-]; try apply apply_filters_raises.
  split; [done|by intros ? [=]].
Qed.

Lemma complete_raises f order ts w r w' :
  complete f order ts w = (r, w') →
  r ≠ Fuel ∧ ∀ e, r = Raise e → e = KeyError "name" ∨ e = KeyError "time".
Proof.
  revert ts w. induction order as [|i order IH]; intros ts w; simpl.
  { intros [= <- <-]. split; [done|by intros ? [=]]. }
  destruct (ts !! i) as [[p|b]|]; [|by apply IH..].
  destruct (get_business_details_finish f p w) as [[b|e|] w1] eqn:Hf.
  - by apply IH.
  - intros [= <- <-]. apply finish_raises in Hf as [_ H].
    split; [done|]. intros e0 [= <-]. by apply H.
  - intros [= <- <-]. by apply finish_raises in Hf as [H _].
Qed.

Lemma gather_raises api_key http f sched ids w r w' :
  gather api_key http f sched ids w = (r, w') →
  r ≠ Fuel ∧ ∀ e, r = Raise e → e = KeyError "name" ∨ e = KeyError "time".
Proof.
  unfold gather. destruct (launch _ _ ids w) as [ps w1].
  destruct (complete f _ _ w1) as [[ts|e|] w2] eqn:Hc; intros [= <- <-].
  - split; [done|by intros ? [=]].
  - apply complete_raises in Hc as [_ H].
    split; [done|]. intros e0 [= <-]. by apply H.
  - by apply complete_raises in Hc as [H _].
Qed.

Lemma place_ids_raises rs :
  place_ids rs ≠ Fuel ∧ ∀ e, place_ids rs = Raise e → e = KeyError "place_id".
Proof.
  induction rs as [|r rs [IH1 IH2]]; simpl; [done|].
  destruct (place_id r); [|split; [done|by intros ? [= <-]]].
  destruct (place_ids rs) as [ids|e|]; [done| |done].
  split; [done|]. intros ? [= <-]. by apply IH2.
Qed.

Lemma gather_built api_key http f sched ids w found w' :
  gather api_key http f sched ids w = (Return found, w') →
  Forall (built_from f) (omap id found).
Proof.
  intros Hg. apply gather_values in Hg.
  induction Hg as [|p r ps found Hr _ IH]; [constructor|].
  destruct r as [b|]; simpl; [|done]. constructor; [|done].
  destruct p as [v|u [v|]]; simpl in Hr; try done;
    apply apply_filters_some in Hr; by eexists _, _.
Qed.

Lemma status_lines_app tr1 tr2 :
  status_lines (tr1 ++ tr2) = status_lines tr1 ++ status_lines tr2.
Proof. apply omap_app. Qed.

Lemma detail_events_no_status devs : Forall detail_event devs → status_lines devs = [].
Proof.
  induction 1 as [|e devs He _ IH]; [done|].
  destruct e; simpl in He; try done; exact IH.
Qed.

Lemma fetch_shape http url w x w1 :
  is_details_url url = false →
  fetch http url w = (x, w1) →
  clock w1 = clock w ∧
  ∃ evs, trace w1 = trace w ++ evs ∧ status_lines evs = [] ∧ length (page_calls evs) = 1%nat.
Proof.
  intros Hu. unfold fetch, fetch_start.
  change (cache_get url (log (ECall url) w)) with (cache_get url w).
  destruct (cache_get url w) as [v|]; simpl.
  - intros [= <- <-]. split; [done|]. exists [ECall url].
    unfold page_calls; simpl. by rewrite Hu.
  - destruct (http _ _); intros [= <- <-]; (split; [done|]);
      exists [ECall url; EHttp url]; simpl; rewrite <- app_assoc;
      unfold page_calls; simpl; by rewrite Hu.
Qed.

Section Runs.

Context (api_key : string) (http : list string → string → option response)
        (location : string) (radius : Z) (business_type : option string)
        (f : filters) (sched : nat → list nat).

Local Abbreviation loop := (find_businesses_loop api_key http location radius business_type f sched).
Local Abbreviation url_of := (build_url api_key location radius business_type).

(** The ten ways one turn of the loop can go. *)
Ltac turn Hrun :=
  rewrite loop_S in Hrun;
  let v := fresh "v" in let e := fresh "e" in let w1 := fresh "w1" in
  let rs := fresh "rs" in let ids := fresh "ids" in
  let found := fresh "found" in let w2 := fresh "w2" in
  let a := fresh "a" in let t := fresh "t" in
  destruct (fetch http _ _) as [[v|e|] w1] eqn:Hfetch;
  [ unfold page_body in Hrun;
    destruct (results v) as [rs|] eqn:Hresults;
    [ destruct (place_ids rs) as [ids|e|] eqn:Hids;
      [ destruct (gather _ _ _ _ ids w1) as [[found|e|] w2] eqn:Hgather;
        [ destruct (next_page_token v) as [[|a t]|] eqn:Htoken | | ]
      | | ]
    | ]
  | | ].

Lemma loop_built fuel : ∀ tok acc page w recs w',
  loop fuel tok acc page w = (Return recs, w') →
  Forall (built_from f) acc → Forall (built_from f) recs.
Proof.
  induction fuel as [|fuel IH]; intros tok acc page w recs w' Hrun Hacc; [done|].
  turn Hrun; simplify_eq; try done.
  - apply Forall_app. split; [done|]. by eapply gather_built.
  - eapply IH; [exact Hrun|]. apply Forall_app. split; [done|]. by eapply gather_built.
  - apply Forall_app. split; [done|]. by eapply gather_built.
Qed.

Lemma loop_raises fuel : ∀ tok acc page w e w',
  loop fuel tok acc page w = (Raise e, w') → e ∈ key_errors.
Proof.
  induction fuel as [|fuel IH]; intros tok acc page w e' w' Hrun; [done|].
  turn Hrun; simplify_eq.
  - by eapply IH.
  - apply gather_raises in Hgather as [_ H]. unfold key_errors.
    destruct (H _ eq_refl) as [-> | ->]; set_solver.
  - match type of Hids with place_ids ?rs = _ =>
      destruct (place_ids_raises rs) as [_ H] end.
    apply H in Hids as ->. set_solver.
Qed.

Lemma loop_prefix fuel : ∀ tok acc page w recs w',
  loop fuel tok acc page w = (Return recs, w') → ∃ more, recs = acc ++ more.
Proof.
  induction fuel as [|fuel IH]; intros tok acc page w recs w' Hrun; [done|].
  turn Hrun; simplify_eq; try (by eexists); try (exists []; by rewrite app_nil_r).
  apply IH in Hrun as [more ->]. rewrite <- app_assoc. by eexists.
Qed.

Ltac last_turn :=
  match goal with
  | Hlast : _ |- ∃ evs k, _ =>
      eapply Hlast;
      [ eassumption | eassumption | eassumption | eassumption
      | first [eassumption | reflexivity]
      | first [eassumption | reflexivity | symmetry; apply app_nil_r]
      | first [eassumption | reflexivity]
      | first [eassumption | reflexivity] ]
  end.

Lemma loop_shape fuel : ∀ tok acc page w r w',
  loop fuel tok acc page w = (r, w') →
  ∃ evs k,
    trace w' = trace w ++ evs ∧
    status_lines evs = (λ p, "Searching page " +:+ pretty p +:+ "...") <$> seq page k ∧
    length (page_calls evs) = k ∧
    (r ≠ Fuel → (0 < k)%nat ∧ clock w' = clock w + 2 * (Z.of_nat k - 1)).
Proof.
  induction fuel as [|fuel IH]; intros tok acc page w r w' Hrun.
  { injection Hrun as <- <-. exists [], 0%nat. by rewrite app_nil_r. }
  assert (∀ w1 c2 tr2 evs1 evs2,
            clock w1 = clock w →
            trace w1 = trace (log (status_line page) w) ++ evs1 →
            status_lines evs1 = [] → length (page_calls evs1) = 1%nat →
            c2 = clock w1 →
            tr2 = trace w1 ++ evs2 →
            status_lines evs2 = [] → page_calls evs2 = [] →
            ∃ evs k,
              tr2 = trace w ++ evs ∧
              status_lines evs
                = (λ p, "Searching page " +:+ pretty p +:+ "...") <$> seq page k ∧
              length (page_calls evs) = k ∧
              (r ≠ Fuel → (0 < k)%nat ∧ c2 = clock w + 2 * (Z.of_nat k - 1)))
    as Hlast.
  { intros w1 c2 tr2 evs1 evs2 Hc1 Ht1 Hs1 Hp1 Hc2 Ht2 Hs2 Hp2.
    exists (status_line page :: evs1 ++ evs2), 1%nat. split; [|split; [|split]].
    - rewrite Ht2, Ht1. simpl. by rewrite <- !app_assoc.
    - change (status_line page :: evs1 ++ evs2) with ([status_line page] ++ evs1 ++ evs2).
      by rewrite !status_lines_app, Hs1, Hs2.
    - change (status_line page :: evs1 ++ evs2) with ([status_line page] ++ evs1 ++ evs2).
      by rewrite !page_calls_app, !length_app, Hp1, Hp2.
    - intros _. split; [lia|]. rewrite Hc2, Hc1. simpl. lia. }
  pose proof (build_url_not_details api_key location radius business_type tok) as Hu.
  turn Hrun;
    apply (fetch_shape _ _ _ _ _ Hu) in Hfetch as (Hc1 & evs1 & Ht1 & Hs1 & Hp1);
    simpl in Hc1;
    try (apply gather_stage in Hgather as [Hc2 (devs & Ht2 & Hdevs) _];
         pose proof (detail_events_no_status devs Hdevs) as Hs2;
         destruct (detail_events_silent devs Hdevs) as (Hp2 & _ & _));
    simplify_eq/=.
  - last_turn.
  - apply IH in Hrun as (evs & k & Ht & Hs & Hp & Hclock).
    exists (status_line page :: evs1 ++ devs ++ ESleep 2 :: evs), (S k).
    split; [|split; [|split]].
    + rewrite Ht. simpl. rewrite Ht2, Ht1. simpl. by rewrite <- !app_assoc.
    + change (status_line page :: evs1 ++ devs ++ ESleep 2 :: evs)
        with ([status_line page] ++ evs1 ++ devs ++ [ESleep 2] ++ evs).
      rewrite !status_lines_app, Hs1, Hs2, Hs. done.
    + change (status_line page :: evs1 ++ devs ++ ESleep 2 :: evs)
        with ([status_line page] ++ evs1 ++ devs ++ [ESleep 2] ++ evs).
      rewrite !page_calls_app, !length_app, Hp1, Hp2, Hp. done.
    + intros Hr. destruct (Hclock Hr) as [Hk ->]. split; [lia|].
      simpl. rewrite Hc2, Hc1. lia.
  - last_turn.
  - last_turn.
  - last_turn.
  - last_turn.
  - last_turn.
  - last_turn.
  - last_turn.
  - last_turn.
Qed.

End Runs.


Lemma built_from_fields f b :
  built_from f b →
  (operational f = true → b_business_status b = "OPERATIONAL") ∧
  (without_website f = true → b_website b = "N/A").
Proof.
  intros (now & d & Hacc & Hb). unfold accepts in Hacc.
  apply passes_Forall in Hacc. unfold source_checks in Hacc.
  apply Forall_cons in Hacc as [Hw Hacc]. apply Forall_cons in Hacc as [Ho _].
  pose proof (proj1 (without_website_line f d) Hw) as Hw'.
  pose proof (proj1 (operational_line f d) Ho) as Ho'.
  unfold make_business in Hb. destruct (name d) as [n|]; [|done].
  injection Hb as <-. simpl. split.
  - intros H. by rewrite (Ho' H).
  - intros H. by rewrite (Hw' H).
Qed.

(** X9: in a run with [operational] on, every returned record has the
    business status "OPERATIONAL"; in a run with [without_website] on,
    every returned record has the website "N/A". *)
Theorem flags_show_in_records
    (api_key : string) (http : list string → string → option response)
    (location : string) (radius : Z) (business_type : option string)
    (f : filters) (sched : nat → list nat)
    (fuel : nat) (w w' : world) (recs : list business) :
  find_businesses api_key http location radius business_type f sched fuel w = (Return recs, w') →
  (operational f = true → Forall (λ b, b_business_status b = "OPERATIONAL") recs) ∧
  (without_website f = true → Forall (λ b, b_website b = "N/A") recs).
Proof.
  intros H. apply loop_built in H; [|done].
  split; intros Hf; (eapply Forall_impl; [exact H|]); intros b Hb;
    by apply built_from_fields in Hb as [? ?]; auto.
Qed.

(** X10: a failed request never leaves [find_businesses].  The failure of
    a detail request is caught at lines 99-101 and that of a page request at
    lines 148-150, so a run that ends in an exception ends in another one. *)
Theorem request_failures_are_caught
    (api_key : string) (http : list string → string → option response)
    (location : string) (radius : Z) (business_type : option string)
    (f : filters) (sched : nat → list nat)
    (fuel : nat) (w w' : world) (e : exn) :
  find_businesses api_key http location radius business_type f sched fuel w = (Raise e, w') →
  e ≠ ClientError.
Proof.
  intros H. apply loop_raises in H.
  intros ->. unfold key_errors in H.
  repeat (apply elem_of_cons in H as [H|H]; [done|]). by apply elem_of_nil in H.
Qed.

(** X11: the loop only appends.  The records gathered before a turn are
    the front part, in the same order, of whatever the run then returns. *)
Theorem earlier_records_are_kept
    (api_key : string) (http : list string → string → option response)
    (location : string) (radius : Z) (business_type : option string)
    (f : filters) (sched : nat → list nat)
    (fuel : nat) (tok : option string) (acc : list business) (page : nat)
    (w w' : world) (recs : list business) :
  find_businesses_loop api_key http location radius business_type f sched
    fuel tok acc page w = (Return recs, w') →
  ∃ more, recs = acc ++ more.
Proof. apply loop_prefix. Qed.

(** X12: the status callback is called once per page fetch, with the
    messages "Searching page 1...", "Searching page 2...", and so on, in
    this order. *)
Theorem status_lines_number_the_pages
    (api_key : string) (http : list string → string → option response)
    (location : string) (radius : Z) (business_type : option string)
    (f : filters) (sched : nat → list nat) (fuel : nat) (w : world) :
  ∃ evs,
    trace (find_businesses api_key http location radius business_type f sched fuel w).2
    = trace w ++ evs ∧
    status_lines evs
    = (λ p, "Searching page " +:+ pretty p +:+ "...") <$> seq 1 (length (page_calls evs)).
Proof.
  unfold find_businesses.
  destruct (find_businesses_loop _ _ _ _ _ _ _ fuel None [] 1%nat w) as [r w'] eqn:H.
  apply loop_shape in H as (evs & k & Ht & Hs & Hp & _).
  exists evs. split; [done|]. by rewrite Hp.
Qed.

(** X13: a run that ends (by returning or by raising) after [k] page
    fetches has slept [2 * (k - 1)] seconds, and [k] is at least 1. *)
Theorem run_sleeps_two_seconds_per_later_page
    (api_key : string) (http : list string → string → option response)
    (location : string) (radius : Z) (business_type : option string)
    (f : filters) (sched : nat → list nat) (fuel : nat)
    (w w' : world) (r : outcome (list business)) :
  find_businesses api_key http location radius business_type f sched fuel w = (r, w') →
  r ≠ Fuel →
  ∃ evs,
    trace w' = trace w ++ evs ∧
    (0 < length (page_calls evs))%nat ∧
    clock w' = clock w + 2 * (Z.of_nat (length (page_calls evs)) - 1).
Proof.
  intros H Hr. apply loop_shape in H as (evs & k & Ht & Hs & Hp & Hclock).
  exists evs. rewrite Hp. destruct (Hclock Hr). done.
Qed.

(** ** The enrichment of one page *)

Lemma start_requests api_key http id w :
  (length (requests (trace (get_business_details_start api_key http id w).2))
   ≤ S (length (requests (trace w))))%nat.
Proof.
  unfold get_business_details_start, fetch_start.
  destruct (cache_get _ _); simpl; rewrite ?requests_app, ?length_app; simpl; lia.
Qed.

Lemma launch_requests api_key http ids : ∀ w,
  (length (requests (trace (launch api_key http ids w).2))
   ≤ length (requests (trace w)) + length ids)%nat.
Proof.
  induction ids as [|i ids IH]; intros w; simpl; [lia|].
  pose proof (start_requests api_key http i w) as H1.
  destruct (get_business_details_start _ _ i w) as [p w1].
  specialize (IH w1). destruct (launch _ _ ids w1) as [ps w2]. simpl in *. lia.
Qed.

Lemma finish_requests f p w :
  requests (trace (get_business_details_finish f p w).2) = requests (trace w).
Proof.
  unfold get_business_details_finish, fetch_finish.
  destruct p as [v|u [v|]]; simpl; [done..|].
  by rewrite requests_app, app_nil_r.
Qed.

Lemma complete_requests f order : ∀ ts w,
  requests (trace (complete f order ts w).2) = requests (trace w).
Proof.
  induction order as [|i order IH]; intros ts w; simpl; [done|].
  destruct (ts !! i) as [[p|b]|]; [|by apply IH..].
  pose proof (finish_requests f p w) as Hf.
  destruct (get_business_details_finish f p w) as [[b|e|] w1]; simpl in *; [|done..].
  by rewrite IH.
Qed.

(** X14: the enrichment of a page sends at most one GET per listed place,
    lets no time pass and leaves the cache entries of search URLs alone;
    when it returns, it returns one value per listed place. *)
Theorem gather_is_one_task_per_place
    (api_key : string) (http : list string → string → option response)
    (f : filters) (sched : list nat) (ids : list string) (w : world) :
  clock (gather api_key http f sched ids w).2 = clock w ∧
  (length (requests (trace (gather api_key http f sched ids w).2))
   ≤ length (requests (trace w)) + length ids)%nat ∧
  (∀ u, is_details_url u = false →
        memo (gather api_key http f sched ids w).2 !! u = memo w !! u) ∧
  (∀ found, (gather api_key http f sched ids w).1 = Return found →
            length found = length ids).
Proof.
  destruct (gather api_key http f sched ids w) as [r w'] eqn:Hg. simpl.
  pose proof Hg as Hstage. apply gather_stage in Hstage as [Hc _ Hm].
  split; [done|]. split; [|split; [done|]].
  - revert Hg. unfold gather.
    pose proof (launch_requests api_key http ids w) as Hl.
    destruct (launch _ _ ids w) as [ps w1]. simpl in Hl.
    pose proof (complete_requests f (sched ++ seq 0 (length ps)) (Running <$> ps) w1) as Hcr.
    destruct (complete f _ _ w1) as [[ts|e|] w2]; simpl in Hcr;
      intros [= <- <-]; by rewrite Hcr.
  - intros found ->. apply gather_values in Hg. apply Forall2_length in Hg.
    destruct (launch api_key http ids w) as [ps w1] eqn:Hl.
    apply launch_stage in Hl as (_ & _ & Hlen). simpl in Hg. lia.
Qed.

(** ** The cache of [fetch] *)

(** X15: after a call of [fetch] that returned a value, the cache answers
    that URL with that value; the entries of all other URLs and the clock
    are as before. *)
Theorem fetch_stores_what_it_returns
    (http : list string → string → option response)
    (url : string) (w w' : world) (v : response) :
  fetch http url w = (Return v, w') →
  cache_get url w' = Some v ∧
  clock w' = clock w ∧
  (∀ u, u ≠ url → memo w' !! u = memo w !! u).
Proof.
  destruct (cache_get url w) as [v0|] eqn:Hc.
  - rewrite (fetch_hit _ _ _ v0) by done. intros [= <- <-]. done.
  - rewrite fetch_miss by done. destruct (http _ url) as [v0|]; [|done].
    intros [= <- <-]. split; [|split; [done|]].
    + unfold cache_get; simpl. rewrite lookup_insert_eq.
      destruct (Z.ltb_spec (clock w) (clock w + ttl)); [done|]. unfold ttl in *. lia.
    + intros u Hu. simpl. by rewrite lookup_insert_ne.
Qed.

(** ** Concrete instances of the further properties *)

Section MoreExamples.

Import Fixture.

Lemma acceptance_only_expires_witness :
  accepts (Filters false false false true false) 100
    (Details (Some "Acme") None None None None None (Some [Review (Some 100)])) = true.
Proof.
  apply (acceptance_only_expires (Filters false false false true false) 100 200
           (Details (Some "Acme") None None None None None (Some [Review (Some 100)]))).
  - lia.
  - reflexivity.
Defined.

Lemma missing_place_id_aborts_page_witness :
  page_body key (scripted [] all_acme) no_filters in_order (λ _ acc _ w, (Return acc, w))
    (Response (Some [Place (Some "p1"); Place None]) None None) [acme_record] 1 (fresh 0)
  = (Raise (KeyError "place_id"), fresh 0).
Proof.
  apply (missing_place_id_aborts_page key (scripted [] all_acme) no_filters in_order
           (λ _ acc _ w, (Return acc, w))
           (Response (Some [Place (Some "p1"); Place None]) None None)
           [Place (Some "p1"); Place None] [acme_record] 1%nat (fresh 0)).
  - reflexivity.
  - apply Exists_cons_tl, Exists_cons_hd. reflexivity.
Defined.


Lemma flags_show_in_records_witness :
  (operational only_operational = true →
     Forall (λ b, b_business_status b = "OPERATIONAL")
       [Business "Acme" "N/A" "N/A" "N/A" "" "OPERATIONAL"]) ∧
  (without_website only_operational = true →
     Forall (λ b, b_website b = "N/A")
       [Business "Acme" "N/A" "N/A" "N/A" "" "OPERATIONAL"]).
Proof.
  apply (flags_show_in_records key
           (scripted [Some (search_reply ["p1"] None)]
              (λ _, Some (detail_reply
                            (Details (Some "Acme") None None None None
                               (Some "OPERATIONAL") None))))
           location radius business_type only_operational in_order 5 (fresh 0)
           (run (scripted [Some (search_reply ["p1"] None)]
                   (λ _, Some (detail_reply
                                 (Details (Some "Acme") None None None None
                                    (Some "OPERATIONAL") None))))
              only_operational 5).2
           [Business "Acme" "N/A" "N/A" "N/A" "" "OPERATIONAL"]).
  by_run.
Defined.

Lemma request_failures_are_caught_witness :
  KeyError "name" ≠ ClientError.
Proof.
  apply (request_failures_are_caught key
           (scripted [Some (search_reply ["p1"; "p2"; "p3"] None)] p2_unknown)
           location radius business_type no_filters in_order 5 (fresh 0)
           (run (scripted [Some (search_reply ["p1"; "p2"; "p3"] None)] p2_unknown)
              no_filters 5).2
           (KeyError "name")).
  by_run.
Defined.

Lemma earlier_records_are_kept_witness :
  ∃ more, [acme_record; acme_record] = [acme_record] ++ more.
Proof.
  apply (earlier_records_are_kept key
           (scripted [Some (search_reply ["p1"] None)] all_acme)
           location radius business_type no_filters in_order 5 None [acme_record] 1%nat
           (fresh 0)
           (find_businesses_loop key (scripted [Some (search_reply ["p1"] None)] all_acme)
              location radius business_type no_filters in_order 5 None [acme_record] 1%nat
              (fresh 0)).2
           [acme_record; acme_record]).
  by_run.
Defined.

Lemma run_sleeps_two_seconds_per_later_page_witness :
  ∃ evs,
    trace (run (scripted [Some (search_reply ["p1"] (Some "A"));
                          Some (search_reply ["p2"] None)] all_acme) no_filters 5).2
    = trace (fresh 0) ++ evs ∧
    (0 < length (page_calls evs))%nat ∧
    clock (run (scripted [Some (search_reply ["p1"] (Some "A"));
                          Some (search_reply ["p2"] None)] all_acme) no_filters 5).2
    = clock (fresh 0) + 2 * (Z.of_nat (length (page_calls evs)) - 1).
Proof.
  apply (run_sleeps_two_seconds_per_later_page key
           (scripted [Some (search_reply ["p1"] (Some "A"));
                      Some (search_reply ["p2"] None)] all_acme)
           location radius business_type no_filters in_order 5 (fresh 0)
           (run (scripted [Some (search_reply ["p1"] (Some "A"));
                           Some (search_reply ["p2"] None)] all_acme) no_filters 5).2
           (Return [acme_record; acme_record])).
  - by_run.
  - discriminate.
Defined.

Lemma fetch_stores_what_it_returns_witness :
  cache_get (details_url key "p1")
    (fetch (scripted [] all_acme) (details_url key "p1") (fresh 0)).2
  = Some (detail_reply acme) ∧
  clock (fetch (scripted [] all_acme) (details_url key "p1") (fresh 0)).2 = clock (fresh 0) ∧
  (∀ u, u ≠ details_url key "p1" →
        memo (fetch (scripted [] all_acme) (details_url key "p1") (fresh 0)).2 !! u
        = memo (fresh 0) !! u).
Proof.
  apply (fetch_stores_what_it_returns (scripted [] all_acme) (details_url key "p1") (fresh 0)
           (fetch (scripted [] all_acme) (details_url key "p1") (fresh 0)).2
           (detail_reply acme)).
  by_run.
Defined.

End MoreExamples.

(** ** What a scripted run returns *)

Lemma place_ids_all rs :
  Forall (λ p, is_Some (place_id p)) rs → place_ids rs = Return (omap place_id rs).
Proof.
  induction 1 as [|p rs [i Hi] _ IH]; simpl; [done|].
  by rewrite Hi, IH.
Qed.

Lemma omap_cons_eq {A B} (g : A → option B) (x : A) (l : list A) :
  omap g (x :: l) = match g x with Some y => y :: omap g l | None => omap g l end.
Proof. reflexivity. Qed.

Section Records.

Context (api_key : string) (location : string) (radius : Z) (business_type : option string)
        (f : filters) (sched : nat → list nat)
        (script : list (option response)) (details : string → option response).
Context (details_enrich : ∀ u v, details u = Some v → enriches f v).

Local Abbreviation http := (scripted script details).
Local Abbreviation loop := (find_businesses_loop api_key http location radius business_type f sched).
Local Abbreviation url_of := (build_url api_key location radius business_type).

Lemma start_agrees id w :
  cache_agrees details w →
  pending_agrees api_key details id (get_business_details_start api_key http id w).1 ∧
  memo (get_business_details_start api_key http id w).2 = memo w ∧
  clock (get_business_details_start api_key http id w).2 = clock w.
Proof.
  intros Hc. unfold get_business_details_start, fetch_start, cache_get. simpl.
  pose proof (details_url_is_details api_key id) as Hu.
  assert (∀ h, http h (details_url api_key id) = details (details_url api_key id)) as Hh.
  { intros h. unfold scripted. by rewrite Hu. }
  destruct (memo w !! details_url api_key id) as [[v expiry]|] eqn:Hm; simpl.
  - destruct (clock w <? expiry); simpl; [|by rewrite Hh].
    split; [|done]. by eapply Hc.
  - by rewrite Hh.
Qed.

Lemma launch_agrees ids : ∀ w,
  cache_agrees details w →
  Forall2 (pending_agrees api_key details) ids (launch api_key http ids w).1.
Proof.
  induction ids as [|i ids IH]; intros w Hc; simpl; [constructor|].
  destruct (start_agrees i w Hc) as (Hp & Hm & _).
  destruct (get_business_details_start _ _ i w) as [p w1]. simpl in *.
  specialize (IH w1). destruct (launch _ _ ids w1) as [ps w2]. simpl in *.
  constructor; [done|]. apply IH. intros u v e Hu. rewrite Hm. by apply Hc.
Qed.

Lemma finish_agrees id p w :
  pending_agrees api_key details id p → cache_agrees details w →
  cache_agrees details (get_business_details_finish f p w).2.
Proof.
  intros Hp Hc. unfold get_business_details_finish, fetch_finish.
  destruct p as [v|u [v|]]; simpl in *; try done.
  destruct Hp as [-> Hv]. intros u' v' e Hu'. simpl.
  destruct (decide (details_url api_key id = u')) as [<-|Hne].
  - rewrite lookup_insert_eq. by intros [= <- _].
  - rewrite lookup_insert_ne by done. by apply Hc.
Qed.

Lemma complete_agrees order : ∀ ts w,
  Forall (λ t, match t with
               | Running p => ∃ id, pending_agrees api_key details id p
               | Finished _ => True
               end) ts →
  cache_agrees details w →
  cache_agrees details (complete f order ts w).2.
Proof.
  induction order as [|i order IH]; intros ts w Hts Hc; simpl; [done|].
  destruct (ts !! i) as [[p|b]|] eqn:Hi; [|by apply IH..].
  pose proof (Forall_lookup_1 _ _ _ _ Hts Hi) as [id Hp]. simpl in Hp.
  pose proof (finish_agrees id p w Hp Hc) as Hc1.
  destruct (get_business_details_finish f p w) as [[b|e|] w1]; simpl in *; [|done..].
  apply IH; [|done]. by apply Forall_insert.
Qed.

Lemma gather_agrees order ids w :
  cache_agrees details w →
  cache_agrees details (gather api_key http f order ids w).2.
Proof.
  intros Hc. unfold gather.
  pose proof (launch_agrees ids w Hc) as Hps.
  pose proof (launch_frame api_key http ids w) as [_ Hm].
  destruct (launch _ _ ids w) as [ps w1]. simpl in *.
  pose proof (complete_agrees (order ++ seq 0 (length ps)) (Running <$> ps) w1) as Hcomp.
  destruct (complete f _ _ w1) as [[ts|e|] w2]; simpl in *; apply Hcomp;
    try (intros u v e' Hu; rewrite Hm; by apply Hc);
    apply Forall_fmap, Forall_forall; intros p Hp; simpl;
    apply list_elem_of_lookup in Hp as [i Hi];
    destruct (Forall2_lookup_r _ _ _ _ _ Hps Hi) as (id & _ & Hid); by exists id.
Qed.

Lemma gather_records order ids w found w' :
  cache_agrees details w →
  gather api_key http f order ids w = (Return found, w') →
  omap id found = omap (enrich api_key f details (clock w)) ids.
Proof.
  intros Hc Hg. apply gather_values in Hg.
  pose proof (launch_agrees ids w Hc) as Hps.
  revert Hg Hps. generalize (launch api_key http ids w).1. intros ps Hv. revert ids.
  induction Hv as [|p r ps found Hr _ IH]; intros ids Hps.
  - by inversion Hps.
  - inversion Hps as [|i ? ids' ? Hp Hps']; subst.
    rewrite (omap_cons_eq id r found),
      (omap_cons_eq (enrich api_key f details (clock w)) i ids'), (IH _ Hps').
    change (id r) with r.
    assert (enrich api_key f details (clock w) i = r) as ->; [|by destruct r].
    unfold enrich. destruct p as [v|u [v|]]; simpl in Hp, Hr.
    + by rewrite Hp, Hr.
    + destruct Hp as [-> Hd]. by rewrite <- Hd, Hr.
    + destruct Hp as [-> Hd]. rewrite <- Hd. by injection Hr.
Qed.

(** One turn whose page is not in the cache and is answered by the next
    element [v] of the script. *)
Lemma turn_records fuel tok acc page w v :
  memo w !! url_of tok = None →
  cache_enriches f w →
  cache_agrees details w →
  places_ok v →
  script !! length (page_gets (trace w)) = Some (Some v) →
  ∃ w1,
    clock w1 = clock w ∧
    length (page_gets (trace w1)) = S (length (page_gets (trace w))) ∧
    (∀ u, is_details_url u = false → u ≠ url_of tok → memo w1 !! u = memo w !! u) ∧
    cache_enriches f w1 ∧
    cache_agrees details w1 ∧
    loop (S fuel) tok acc page w =
      match results v with
      | None => (Return acc, w1)
      | Some _ =>
          match next_page_token v with
          | Some (String _ _ as t) =>
              loop fuel (Some t)
                (acc ++ omap (enrich api_key f details (clock w)) (ids_of v))
                (S page) (sleep 2 w1)
          | _ => (Return (acc ++ omap (enrich api_key f details (clock w)) (ids_of v)), w1)
          end
      end.
Proof.
  intros Hm Hc Ha Hpl Hs.
  pose proof (build_url_not_details api_key location radius business_type tok) as Hnd.
  destruct (turn_events page (url_of tok) Hnd) as (_ & Hpg & _).
  rewrite loop_page_missed by (unfold cache_get; by rewrite Hm).
  cbv zeta. unfold scripted at 1. rewrite Hnd.
  fold (page_gets (trace w)). rewrite Hs. simpl mjoin. cbv iota.
  set (w0 := cache_set (url_of tok) v _).
  assert (trace w0 = trace w ++ [status_line page; ECall (url_of tok); EHttp (url_of tok)])
    as Ht0 by (unfold w0; simpl; by rewrite <- !app_assoc).
  assert (length (page_gets (trace w0)) = S (length (page_gets (trace w)))) as Hg0.
  { rewrite Ht0, page_gets_app, length_app, Hpg. simpl. lia. }
  assert (∀ u, u ≠ url_of tok → memo w0 !! u = memo w !! u) as Hm0.
  { intros u Hu. unfold w0; simpl. by rewrite lookup_insert_ne. }
  assert (cache_enriches f w0) as Hc0.
  { intros u x e Hu. unfold w0; simpl.
    destruct (decide (url_of tok = u)) as [<-|Hne]; [congruence|].
    rewrite lookup_insert_ne by done. by apply Hc. }
  assert (cache_agrees details w0) as Ha0.
  { intros u x e Hu. unfold w0; simpl.
    destruct (decide (url_of tok = u)) as [<-|Hne]; [congruence|].
    rewrite lookup_insert_ne by done. by apply Ha. }
  unfold page_body. destruct (results v) as [rs|] eqn:Hrs.
  2:{ exists w0. repeat split; auto. }
  rewrite (place_ids_all rs (Hpl rs Hrs)).
  assert (ids_of v = omap place_id rs) as Hids by (unfold ids_of; by rewrite Hrs).
  destruct (gather_enriches api_key http f (scripted_enriches f script details details_enrich)
              (sched page) (omap place_id rs) w0 Hc0) as (found & w1 & Hg & Hc1).
  pose proof (gather_agrees (sched page) (omap place_id rs) w0 Ha0) as Ha1.
  pose proof (gather_records _ _ _ _ _ Ha0 Hg) as Hrec.
  rewrite Hg in Ha1 |- *. simpl in Ha1.
  apply gather_stage in Hg as [Hclk (devs & Ht1 & Hdevs) Hm1].
  destruct (detail_events_silent devs Hdevs) as (_ & Hd2 & _).
  change (clock w0) with (clock w) in Hrec, Hclk.
  exists w1. rewrite Hrec, Hids.
  split; [done|]. split.
  { by rewrite Ht1, page_gets_app, length_app, Hd2, Nat.add_0_r. }
  split; [|done].
  intros u Hu Hne. rewrite Hm1 by done. by apply Hm0.
Qed.

Lemma loop_records rem : ∀ last tok acc page w fuel,
  Forall has_next rem →
  next_page_token last = None →
  Forall places_ok (rem ++ [last]) →
  cache_enriches f w →
  cache_agrees details w →
  NoDup (url_of tok :: ((url_of ∘ next_page_token) <$> rem)) →
  (∀ u, u ∈ url_of tok :: ((url_of ∘ next_page_token) <$> rem) → memo w !! u = None) →
  drop (length (page_gets (trace w))) script = Some <$> (rem ++ [last]) →
  (length rem < fuel)%nat →
  ∃ w',
    loop fuel tok acc page w =
      (Return (acc ++ concat (imap (λ k v, omap (enrich api_key f details
                                                   (clock w + 2 * Z.of_nat k)) (ids_of v))
                                (rem ++ [last]))), w').
Proof.
  induction rem as [|r rem IH];
    intros last tok acc page w fuel Hnext Hlast Hpl Hc Ha Hnd Hfree Hs Hfuel;
    (destruct fuel as [|fuel]; [simpl in Hfuel; lia|]).
  - simpl in Hpl, Hfree, Hs. apply Forall_cons in Hpl as [Hpl _].
    destruct (turn_records fuel tok acc page w last)
      as (w1 & _ & _ & _ & _ & _ & Hloop);
      [apply Hfree; apply list_elem_of_here|done|done|done| |].
    { rewrite <- (Nat.add_0_r (length _)), <- lookup_drop, Hs. done. }
    rewrite Hlast in Hloop. exists w1. rewrite Hloop. simpl.
    rewrite Z.add_0_r, app_nil_r.
    destruct (results last) eqn:Hres; [done|].
    unfold ids_of. rewrite Hres. simpl. by rewrite app_nil_r.
  - apply Forall_cons in Hnext as [[[rs Hrs] (t & Htok & Htne)] Hnext].
    simpl in Hpl. apply Forall_cons in Hpl as [Hplr Hpl].
    simpl in Hnd, Hfree, Hs. rewrite Htok in Hnd, Hfree.
    apply NoDup_cons in Hnd as [Hfresh Hnd].
    destruct (turn_records fuel tok acc page w r)
      as (w1 & Hclk & Hgets & Hm1 & Hc1 & Ha1 & Hloop);
      [apply Hfree; apply list_elem_of_here|done|done|done| |].
    { rewrite <- (Nat.add_0_r (length _)), <- lookup_drop, Hs. done. }
    rewrite Hrs, Htok in Hloop. destruct t as [|a t]; [done|].
    destruct (IH last (Some (String a t))
                (acc ++ omap (enrich api_key f details (clock w)) (ids_of r))
                (S page) (sleep 2 w1) fuel) as (w' & Hrun); try done.
    + intros u Hin. simpl. rewrite Hm1; [apply Hfree; by apply list_elem_of_further| |].
      * apply elem_of_cons in Hin as [->|Hin]; [apply build_url_not_details|].
        apply list_elem_of_fmap in Hin as (x & -> & _). apply build_url_not_details.
      * intros ->. done.
    + change (trace (sleep 2 w1)) with (trace w1 ++ [ESleep 2]).
      rewrite page_gets_app. change (page_gets [ESleep 2]) with (@nil string).
      rewrite app_nil_r, Hgets.
      rewrite (drop_S script (Some r) (length (page_gets (trace w)))) in Hs.
      * by injection Hs.
      * rewrite <- (Nat.add_0_r (length _)), <- lookup_drop, Hs. done.
    + simpl in Hfuel. lia.
    + exists w'. rewrite Hloop, Hrun. f_equal. f_equal.
      rewrite <- app_assoc. f_equal.
      change ((r :: rem) ++ [last]) with (r :: (rem ++ [last])).
      rewrite imap_cons. simpl concat. rewrite Z.add_0_r. f_equal. f_equal.
      apply imap_ext. intros k v _. unfold compose.
      replace (clock w1 + 2 + 2 * Z.of_nat k) with (clock w + 2 * Z.of_nat (S k)); [done|].
      rewrite Hclk. lia.
Qed.

End Records.


(** ** The caller *)

(** X17: when the request for the first page fails, [async_search] tells
    the user that no businesses match the criteria: nothing is written, and
    the failure is not reported. *)
Theorem failed_search_reports_nothing_found
    (api_key : string) (http : list string → string → option response)
    (location : string) (radius : Z) (business_type : option string)
    (f : filters) (sched : nat → list nat) (fuel : nat) (w : world) :
  cache_get (build_url api_key location radius business_type None) w = None →
  http (requests (trace w)) (build_url api_key location radius business_type None) = None →
  ∃ w',
    async_search api_key http location radius business_type f sched (S fuel) w
    = (Return [SetStatus "No businesses found based on your criteria."], w').
Proof.
  intros Hmiss Hfail. unfold async_search, find_businesses.
  rewrite loop_page_missed by done. cbv zeta. rewrite Hfail. by eexists.
Qed.


Section CallerExamples.

Import Fixture.


Lemma failed_search_reports_nothing_found_witness :
  ∃ w',
    async_search key (scripted [None] all_acme) location radius business_type
      no_filters in_order 1 (fresh 0)
    = (Return [SetStatus "No businesses found based on your criteria."], w').
Proof.
  apply (failed_search_reports_nothing_found key (scripted [None] all_acme) location radius
           business_type no_filters in_order 0 (fresh 0)).
  - reflexivity.
  - vm_compute. reflexivity.
Defined.


End CallerExamples.
